(** * Face Fun Studio: the overlay composition and interaction engine

    A shallow embedding of [src/editor/tools.ts], [src/editor/types.ts],
    [src/editor/CanvasStage.tsx] and the state owned by [src/App.tsx].

    Numbers.  A JavaScript [number] is modelled as a real number: [+], [-],
    [*], [/], [Math.sqrt], [Math.max], [Math.min] and [<] are the exact
    operations of [R].  Rounding, NaN and the infinities of IEEE doubles are
    outside the model.

    Time.  The component is single-threaded: user input, the changes of the
    props made by [App] and the completions of image decodes are events
    that are handled one at a time by [step].  A React effect is modelled by
    the closure it creates: its [cancelled] flag and the decodes it awaits. *)

From Stdlib Require Import Reals Lra Lia ZArith.
From stdpp Require Import base option list strings gmap.

(* ===================================================================== *)
(** * src/editor/tools.ts *)
(* ===================================================================== *)

Module Tools.
Local Open Scope R_scope.

(** [Math.max(min, Math.min(max, n))] *)
Definition clamp (n min max : R) : R := Rmax min (Rmin max n).

End Tools.

(* ===================================================================== *)
(** * src/editor/types.ts *)
(* ===================================================================== *)

Inductive OverlayKind := image | text.

Module OverlayItem.
Record t := mk {
  id : string;
  kind : OverlayKind;
  x : R;
  y : R;
  scale : R;
  rotation : R;          (* radians *)
  src : option string;   (* for image *)
  text : option string   (* for text *)
}.

(** [{ ...o, x: nx, y: ny }] *)
Definition with_xy (o : t) (nx ny : R) : t :=
  mk (id o) (kind o) nx ny (scale o) (rotation o) (src o) (text o).

(** [{ ...o, rotation: r }] *)
Definition with_rotation (o : t) (r : R) : t :=
  mk (id o) (kind o) (x o) (y o) (scale o) r (src o) (text o).

(** [{ ...o, scale: s }] *)
Definition with_scale (o : t) (s : R) : t :=
  mk (id o) (kind o) (x o) (y o) s (rotation o) (src o) (text o).
End OverlayItem.

Abbreviation OverlayItem := OverlayItem.t.

(** The decoded bitmap handed over by the platform ([HTMLImageElement]). *)
Record HTMLImageElement := {
  img_src : string;
  naturalWidth : R;
  naturalHeight : R
}.

(** JavaScript truthiness of an optional string: [undefined] and the empty
    string are falsy. *)
Definition truthy (s : option string) : bool :=
  match s with
  | None => false
  | Some s => negb (String.eqb s "")
  end.

Definition Rltb (a b : R) : bool := if Rlt_dec a b then true else false.

(* ===================================================================== *)
(** * The platform: the 2D drawing context of a canvas

    The part of [CanvasRenderingContext2D] the component calls.  The current
    transformation matrix is the affine matrix [a b c d e f] of the HTML
    canvas standard; [translate], [rotate] and [scale] multiply it on the
    right, and a point of the local frame is mapped by the matrix that is
    current when the shape is painted.  Every paint operation is recorded
    with the drawing state under which it was issued; the record is in
    paint order (a later entry is painted over an earlier one). *)
(* ===================================================================== *)

Module Canvas.
Local Open Scope R_scope.

Record Matrix := { ma : R; mb : R; mc : R; md : R; me : R; mf : R }.

Definition identity : Matrix := Build_Matrix 1 0 0 1 0 0.

(** [m × n]: [n] is applied to a point first, then [m]. *)
Definition mmul (m n : Matrix) : Matrix :=
  {| ma := ma m * ma n + mc m * mb n;
     mb := mb m * ma n + md m * mb n;
     mc := ma m * mc n + mc m * md n;
     md := mb m * mc n + md m * md n;
     me := ma m * me n + mc m * mf n + me m;
     mf := mb m * me n + md m * mf n + mf m |}.

Definition apply (m : Matrix) (p : R * R) : R * R :=
  (ma m * fst p + mc m * snd p + me m, mb m * fst p + md m * snd p + mf m).

Definition translation (tx ty : R) : Matrix := Build_Matrix 1 0 0 1 tx ty.
Definition rotation (angle : R) : Matrix :=
  Build_Matrix (cos angle) (sin angle) (- sin angle) (cos angle) 0 0.
Definition scaling (sx sy : R) : Matrix := Build_Matrix sx 0 0 sy 0 0.

(** The drawing state that [save] pushes and [restore] pops. *)
Record DrawState := {
  transform : Matrix;
  fillStyle : string;
  strokeStyle : string;
  lineWidth : R;
  font : string;
  textAlign : string;
  textBaseline : string
}.

Definition defaultState : DrawState :=
  {| transform := identity; fillStyle := "#000000"; strokeStyle := "#000000";
     lineWidth := 1; font := "10px sans-serif"; textAlign := "start";
     textBaseline := "alphabetic" |}.

Inductive Paint :=
| ClearRect (st : DrawState) (x y w h : R)
| FillRect (st : DrawState) (x y w h : R)
| StrokeRect (st : DrawState) (x y w h : R)
| DrawImage (st : DrawState) (img : HTMLImageElement) (dx dy dw dh : R)
| FillText (st : DrawState) (s : string) (x y : R).

Record Context2D := {
  cur : DrawState;
  stack : list DrawState;
  painted : list Paint
}.

Definition fresh : Context2D :=
  {| cur := defaultState; stack := []; painted := [] |}.

Definition with_cur (f : DrawState → DrawState) (ctx : Context2D) : Context2D :=
  {| cur := f (cur ctx); stack := stack ctx; painted := painted ctx |}.

Definition paint (op : DrawState → Paint) (ctx : Context2D) : Context2D :=
  {| cur := cur ctx; stack := stack ctx;
     painted := painted ctx ++ [op (cur ctx)] |}.

Definition set_transform (m : Matrix) (s : DrawState) : DrawState :=
  {| transform := m; fillStyle := fillStyle s; strokeStyle := strokeStyle s;
     lineWidth := lineWidth s; font := font s; textAlign := textAlign s;
     textBaseline := textBaseline s |}.

Definition save (ctx : Context2D) : Context2D :=
  {| cur := cur ctx; stack := cur ctx :: stack ctx; painted := painted ctx |}.

(** [restore] on an empty stack does nothing. *)
Definition restore (ctx : Context2D) : Context2D :=
  match stack ctx with
  | [] => ctx
  | s :: rest => {| cur := s; stack := rest; painted := painted ctx |}
  end.

Definition setTransform (a b c d e f : R) : Context2D → Context2D :=
  with_cur (set_transform (Build_Matrix a b c d e f)).
Definition translate (tx ty : R) : Context2D → Context2D :=
  with_cur (λ s, set_transform (mmul (transform s) (translation tx ty)) s).
Definition rotate (angle : R) : Context2D → Context2D :=
  with_cur (λ s, set_transform (mmul (transform s) (rotation angle)) s).
Definition scale (sx sy : R) : Context2D → Context2D :=
  with_cur (λ s, set_transform (mmul (transform s) (scaling sx sy)) s).

Definition set_fillStyle (v : string) : Context2D → Context2D :=
  with_cur (λ s,
    {| transform := transform s; fillStyle := v; strokeStyle := strokeStyle s;
       lineWidth := lineWidth s; font := font s; textAlign := textAlign s;
       textBaseline := textBaseline s |}).
Definition set_strokeStyle (v : string) : Context2D → Context2D :=
  with_cur (λ s,
    {| transform := transform s; fillStyle := fillStyle s; strokeStyle := v;
       lineWidth := lineWidth s; font := font s; textAlign := textAlign s;
       textBaseline := textBaseline s |}).
Definition set_lineWidth (v : R) : Context2D → Context2D :=
  with_cur (λ s,
    {| transform := transform s; fillStyle := fillStyle s;
       strokeStyle := strokeStyle s; lineWidth := v; font := font s;
       textAlign := textAlign s; textBaseline := textBaseline s |}).
Definition set_font (v : string) : Context2D → Context2D :=
  with_cur (λ s,
    {| transform := transform s; fillStyle := fillStyle s;
       strokeStyle := strokeStyle s; lineWidth := lineWidth s; font := v;
       textAlign := textAlign s; textBaseline := textBaseline s |}).
Definition set_textAlign (v : string) : Context2D → Context2D :=
  with_cur (λ s,
    {| transform := transform s; fillStyle := fillStyle s;
       strokeStyle := strokeStyle s; lineWidth := lineWidth s; font := font s;
       textAlign := v; textBaseline := textBaseline s |}).
Definition set_textBaseline (v : string) : Context2D → Context2D :=
  with_cur (λ s,
    {| transform := transform s; fillStyle := fillStyle s;
       strokeStyle := strokeStyle s; lineWidth := lineWidth s; font := font s;
       textAlign := textAlign s; textBaseline := v |}).

Definition clearRect (x y w h : R) : Context2D → Context2D :=
  paint (λ s, ClearRect s x y w h).
Definition fillRect (x y w h : R) : Context2D → Context2D :=
  paint (λ s, FillRect s x y w h).
Definition strokeRect (x y w h : R) : Context2D → Context2D :=
  paint (λ s, StrokeRect s x y w h).
Definition drawImage (img : HTMLImageElement) (dx dy dw dh : R)
  : Context2D → Context2D :=
  paint (λ s, DrawImage s img dx dy dw dh).
Definition fillText (t : string) (x y : R) : Context2D → Context2D :=
  paint (λ s, FillText s t x y).

(** The drawing state under which a paint operation was issued. *)
Definition state_of (p : Paint) : DrawState :=
  match p with
  | ClearRect s _ _ _ _ | FillRect s _ _ _ _ | StrokeRect s _ _ _ _
  | DrawImage s _ _ _ _ _ | FillText s _ _ _ => s
  end.

(** The centre, in the local frame, of the shape a paint operation draws.
    A text is anchored at its point with the alignment of its state. *)
Definition centre_of (p : Paint) : R * R :=
  match p with
  | ClearRect _ x y w h | FillRect _ x y w h | StrokeRect _ x y w h
  | DrawImage _ _ x y w h => (x + w / 2, y + h / 2)
  | FillText _ _ x y => (x, y)
  end.
End Canvas.

(* ===================================================================== *)
(** * src/editor/CanvasStage.tsx *)
(* ===================================================================== *)

(** [type DragState = { id; offsetX; offsetY } | null] *)
Module DragState.
Record t := mk { id : string; offsetX : R; offsetY : R }.
End DragState.

(** The closure of one run of the effect that loads the base image: its
    [cancelled] flag, and whether [loadImage(baseImageUrl)] is still
    awaited. *)
Module BaseEffect.
Record t := mk { cancelled : bool; awaiting : bool }.
Definition cancel (c : t) : t := mk true (awaiting c).
Definition settle (c : t) : t := mk (cancelled c) false.
End BaseEffect.

(** The promise returned by one [loadImage] call. *)
Inductive Decode :=
| Pending
| Fulfilled (img : HTMLImageElement)
| Rejected.

(** The state of a promise once [loadImage] has settled with [r]: [Some img]
    for [onload], [None] for [onerror]. *)
Definition settled_as (r : option HTMLImageElement) : Decode :=
  match r with
  | Some img => Fulfilled img
  | None => Rejected
  end.

(** The closure of one run of the effect that loads the overlay images: its
    [cancelled] flag, the [needed] pairs and the promises handed to
    [Promise.all], in the order of [needed]. *)
Module OverlayEffect.
Record t := mk {
  cancelled : bool;
  needed : list (string * string);
  decodes : list Decode
}.
Definition cancel (c : t) : t := mk true (needed c) (decodes c).
Definition with_decodes (c : t) (ds : list Decode) : t :=
  mk (cancelled c) (needed c) ds.
End OverlayEffect.

(** [{ id: string; dist: number }], the running minimum of [pickOverlay]. *)
Module Best.
Record t := mk { id : string; dist : R }.
End Best.

(** A pointer event and the bounding rectangle of its target. *)
Record PointerEvent := {
  clientX : R;
  clientY : R;
  rect_left : R;
  rect_top : R
}.

Module CanvasStage.
Local Open Scope R_scope.
Import Canvas.

(** The props ([baseImageUrl], [overlays], owned by [App]), the four
    [useState] cells and the closures of the effects run so far (an effect
    run is named by its position in the list). *)
Record State := {
  baseImageUrl : option string;
  overlays : list OverlayItem;
  drag : option DragState.t;
  selectedId : option string;
  baseImg : option HTMLImageElement;
  overlayImgs : gmap string HTMLImageElement;
  baseEffects : list BaseEffect.t;
  overlayEffects : list OverlayEffect.t
}.

Definition setDrag (v : option DragState.t) (st : State) : State :=
  {| baseImageUrl := baseImageUrl st; overlays := overlays st; drag := v;
     selectedId := selectedId st; baseImg := baseImg st;
     overlayImgs := overlayImgs st; baseEffects := baseEffects st;
     overlayEffects := overlayEffects st |}.

Definition setSelectedId (v : option string) (st : State) : State :=
  {| baseImageUrl := baseImageUrl st; overlays := overlays st;
     drag := drag st; selectedId := v; baseImg := baseImg st;
     overlayImgs := overlayImgs st; baseEffects := baseEffects st;
     overlayEffects := overlayEffects st |}.

Definition setBaseImg (v : option HTMLImageElement) (st : State) : State :=
  {| baseImageUrl := baseImageUrl st; overlays := overlays st;
     drag := drag st; selectedId := selectedId st; baseImg := v;
     overlayImgs := overlayImgs st; baseEffects := baseEffects st;
     overlayEffects := overlayEffects st |}.

Definition setOverlayImgs
    (f : gmap string HTMLImageElement → gmap string HTMLImageElement)
    (st : State) : State :=
  {| baseImageUrl := baseImageUrl st; overlays := overlays st;
     drag := drag st; selectedId := selectedId st; baseImg := baseImg st;
     overlayImgs := f (overlayImgs st); baseEffects := baseEffects st;
     overlayEffects := overlayEffects st |}.

Definition with_baseEffects (v : list BaseEffect.t) (st : State) : State :=
  {| baseImageUrl := baseImageUrl st; overlays := overlays st;
     drag := drag st; selectedId := selectedId st; baseImg := baseImg st;
     overlayImgs := overlayImgs st; baseEffects := v;
     overlayEffects := overlayEffects st |}.

Definition with_overlayEffects (v : list OverlayEffect.t) (st : State)
  : State :=
  {| baseImageUrl := baseImageUrl st; overlays := overlays st;
     drag := drag st; selectedId := selectedId st; baseImg := baseImg st;
     overlayImgs := overlayImgs st; baseEffects := baseEffects st;
     overlayEffects := v |}.

Definition with_baseImageUrl (v : option string) (st : State) : State :=
  {| baseImageUrl := v; overlays := overlays st; drag := drag st;
     selectedId := selectedId st; baseImg := baseImg st;
     overlayImgs := overlayImgs st; baseEffects := baseEffects st;
     overlayEffects := overlayEffects st |}.

Definition with_overlays (v : list OverlayItem) (st : State) : State :=
  {| baseImageUrl := baseImageUrl st; overlays := v; drag := drag st;
     selectedId := selectedId st; baseImg := baseImg st;
     overlayImgs := overlayImgs st; baseEffects := baseEffects st;
     overlayEffects := overlayEffects st |}.

(** ** Load base image (lines 38-51) *)

(** The effect runs when [baseImageUrl] has changed: the cleanup of the
    previous run sets its [cancelled] flag, then the new closure starts.
    With a falsy url it clears the slot at once and awaits nothing. *)
Definition baseImageEffect (st : State) : State :=
  let old := baseEffects st in
  let cleaned := alter BaseEffect.cancel (pred (length old)) old in
  if truthy (baseImageUrl st) then
    with_baseEffects (cleaned ++ [BaseEffect.mk false true]) st
  else
    with_baseEffects (cleaned ++ [BaseEffect.mk false false])
      (setBaseImg None st).

(** [loadImage(baseImageUrl)] of run [eff] settles, with [Some img]
    ([onload]) or [None] ([onerror]).  The continuation after [await]
    applies the bitmap unless [cancelled]; the [.catch] handler clears the
    slot. *)
Definition baseDecoded (eff : nat) (r : option HTMLImageElement)
    (st : State) : State :=
  match baseEffects st !! eff with
  | Some c =>
      if BaseEffect.awaiting c then
        let st := with_baseEffects
                    (<[eff := BaseEffect.settle c]> (baseEffects st)) st in
        match r with
        | Some img =>
            if BaseEffect.cancelled c then st else setBaseImg (Some img) st
        | None => setBaseImg None st
        end
      else st
  | None => st
  end.

(** ** Load overlay images (lines 54-82) *)

Definition entries (ovs : list OverlayItem) : list (string * string) :=
  map (λ o, (OverlayItem.id o, default "" (OverlayItem.src o)))
    (List.filter
       (λ o, match OverlayItem.kind o with
             | image => truthy (OverlayItem.src o)
             | text => false
             end) ovs).

Definition neededOf (imgs : gmap string HTMLImageElement)
    (ovs : list OverlayItem) : list (string * string) :=
  List.filter (λ e, match imgs !! e.1 with Some _ => false | None => true end)
    (entries ovs).

(** The effect runs when [overlays] has changed (a new array).  [needed]
    is computed from the [overlayImgs] of the render that scheduled the
    effect; with nothing needed the closure returns before any decode. *)
Definition overlayImagesEffect (st : State) : State :=
  let old := overlayEffects st in
  let cleaned := alter OverlayEffect.cancel (pred (length old)) old in
  let needed := neededOf (overlayImgs st) (overlays st) in
  match needed with
  | [] => with_overlayEffects (cleaned ++ [OverlayEffect.mk false [] []]) st
  | _ :: _ =>
      with_overlayEffects
        (cleaned ++
           [OverlayEffect.mk false needed (replicate (length needed) Pending)])
        st
  end.

(** [Promise.all]: the pairs [[id, img]] in the order of [needed] once every
    promise is fulfilled; nothing while one is pending or after one was
    rejected. *)
Fixpoint loadedPairs (needed : list (string * string)) (ds : list Decode)
  : option (list (string * HTMLImageElement)) :=
  match needed, ds with
  | [], [] => Some []
  | (id, _) :: needed, Fulfilled img :: ds =>
      match loadedPairs needed ds with
      | Some pairs => Some ((id, img) :: pairs)
      | None => None
      end
  | _, _ => None
  end.

(** [const next = { ...prev }; for (const [id, img] of loadedPairs)
    next[id] = img; return next;] *)
Definition merge (pairs : list (string * HTMLImageElement))
    (prev : gmap string HTMLImageElement) : gmap string HTMLImageElement :=
  fold_left (λ next p, <[p.1 := p.2]> next) pairs prev.

(** The [k]-th [loadImage] of run [eff] settles.  When that fulfils
    [Promise.all], the continuation merges the pairs unless [cancelled];
    a rejection is swallowed by [.catch(() => void 0)]. *)
Definition overlayDecoded (eff k : nat) (r : option HTMLImageElement)
    (st : State) : State :=
  match overlayEffects st !! eff with
  | Some c =>
      match OverlayEffect.decodes c !! k with
      | Some Pending =>
          let ds := <[k := settled_as r]> (OverlayEffect.decodes c) in
          let st := with_overlayEffects
                      (<[eff := OverlayEffect.with_decodes c ds]>
                         (overlayEffects st)) st in
          match loadedPairs (OverlayEffect.needed c) ds with
          | Some pairs =>
              if OverlayEffect.cancelled c then st
              else setOverlayImgs (merge pairs) st
          | None => st
          end
      | _ => st
      end
  | None => st
  end.

(** [setOverlays(f)]: the owner replaces the collection by a new array, the
    component renders again and the effect keyed on [overlays] runs. *)
Definition setOverlays (f : list OverlayItem → list OverlayItem) (st : State)
  : State :=
  overlayImagesEffect (with_overlays (f (overlays st)) st).

(** ** Stage size and drawing (lines 84-169) *)

(** [containerRef.current?.clientWidth ?? 600], clamped, square. *)
Definition stageSize (clientWidth : option R) : R * R :=
  let w := default 600 clientWidth in
  let size := Tools.clamp w 320 900 in
  (size, size).

(** [window.devicePixelRatio || 1] *)
Definition dprOf (devicePixelRatio : R) : R :=
  if Req_dec_T devicePixelRatio 0 then 1 else devicePixelRatio.

(** The cover placement of a bitmap of size [iw] x [ih] in [w] x [h]:
    [(dx, dy, dw, dh)]. *)
Definition coverFit (w h iw ih : R) : R * R * R * R :=
  let scale := Rmax (w / iw) (h / ih) in
  let dw := iw * scale in
  let dh := ih * scale in
  let dx := (w - dw) / 2 in
  let dy := (h - dh) / 2 in
  (dx, dy, dw, dh).

Definition drawBackground (w h dpr : R) (ctx : Context2D) : Context2D :=
  let ctx := setTransform dpr 0 0 dpr 0 0 ctx in
  let ctx := clearRect 0 0 w h ctx in
  let ctx := set_fillStyle "#111" ctx in
  fillRect 0 0 w h ctx.

Definition drawBase (baseImg : option HTMLImageElement) (w h : R)
    (ctx : Context2D) : Context2D :=
  match baseImg with
  | Some img =>
      let '(dx, dy, dw, dh) :=
        coverFit w h (naturalWidth img) (naturalHeight img) in
      drawImage img dx dy dw dh ctx
  | None =>
      let ctx := set_fillStyle "#222" ctx in
      let ctx := fillRect 0 0 w h ctx in
      let ctx := set_fillStyle "#bbb" ctx in
      let ctx :=
        set_font "16px system-ui, -apple-system, Segoe UI, Roboto, Arial" ctx in
      fillText "Upload a photo to start" 20 30 ctx
  end.

(** [o.id === selectedId] *)
Definition is_selected (selectedId : option string) (o : OverlayItem) : bool :=
  match selectedId with
  | Some s => String.eqb (OverlayItem.id o) s
  | None => false
  end.

(** What is painted inside the frame of overlay [o]. *)
Definition drawShape (overlayImgs : gmap string HTMLImageElement)
    (selectedId : option string) (o : OverlayItem) (ctx : Context2D)
  : Context2D :=
  match OverlayItem.kind o with
  | image =>
      if truthy (OverlayItem.src o) then
        match overlayImgs !! OverlayItem.id o with
        | Some img =>
            let ow := naturalWidth img in
            let oh := naturalHeight img in
            let ctx := drawImage img (- ow / 2) (- oh / 2) ow oh ctx in
            if is_selected selectedId o then
              let ctx := set_strokeStyle "rgba(255,255,255,0.8)" ctx in
              let ctx := set_lineWidth 2 ctx in
              strokeRect (- ow / 2) (- oh / 2) ow oh ctx
            else ctx
        | None => ctx
        end
      else ctx
  | text =>
      if truthy (OverlayItem.text o) then
        let ctx := set_fillStyle "white" ctx in
        let ctx := set_font "48px Impact, system-ui" ctx in
        let ctx := set_textAlign "center" ctx in
        let ctx := set_textBaseline "middle" ctx in
        let ctx := fillText (default "" (OverlayItem.text o)) 0 0 ctx in
        if is_selected selectedId o then
          let ctx := set_strokeStyle "rgba(255,255,255,0.8)" ctx in
          let ctx := set_lineWidth 2 ctx in
          strokeRect (-150) (-35) 300 70 ctx
        else ctx
      else ctx
  end.

(** The body of [for (const o of overlays)]. *)
Definition drawOverlay (overlayImgs : gmap string HTMLImageElement)
    (selectedId : option string) (ctx : Context2D) (o : OverlayItem)
  : Context2D :=
  let ctx := save ctx in
  let ctx := translate (OverlayItem.x o) (OverlayItem.y o) ctx in
  let ctx := rotate (OverlayItem.rotation o) ctx in
  let ctx := scale (OverlayItem.scale o) (OverlayItem.scale o) ctx in
  let ctx := drawShape overlayImgs selectedId o ctx in
  restore ctx.

(** The canvas element after the draw effect.  Assigning [canvas.width]
    resets the context to its default state and clears the bitmap, so the
    frame starts from [Canvas.fresh]. *)
Record CanvasElement := {
  width : Z;
  height : Z;
  context : Context2D
}.

Definition draw (st : State) (clientWidth : option R) (devicePixelRatio : R)
  : CanvasElement :=
  let dpr := dprOf devicePixelRatio in
  let '(w, h) := stageSize clientWidth in
  let ctx := drawBackground w h dpr fresh in
  let ctx := drawBase (baseImg st) w h ctx in
  let ctx :=
    fold_left (drawOverlay (overlayImgs st) (selectedId st)) (overlays st) ctx in
  {| width := Zfloor (w * dpr); height := Zfloor (h * dpr); context := ctx |}.

(** ** Pointer and wheel handlers (lines 171-240) *)

Definition getPointerPos (e : PointerEvent) : R * R :=
  (clientX e - rect_left e, clientY e - rect_top e).

(** The distance [pickOverlay] computes for overlay [o]. *)
Definition distTo (x y : R) (o : OverlayItem) : R :=
  let dx := OverlayItem.x o - x in
  let dy := OverlayItem.y o - y in
  sqrt (dx * dx + dy * dy).

(** One iteration of the loop of [pickOverlay]. *)
Definition pickStep (x y : R) (best : option Best.t) (o : OverlayItem)
  : option Best.t :=
  let dist := distTo x y o in
  match best with
  | None => Some (Best.mk (OverlayItem.id o) dist)
  | Some b =>
      if Rltb dist (Best.dist b) then Some (Best.mk (OverlayItem.id o) dist)
      else best
  end.

Definition pickOverlay (ovs : list OverlayItem) (x y : R) : option string :=
  match ovs with
  | [] => None
  | _ :: _ =>
      let best := fold_left (pickStep x y) ovs None in
      match best with
      | Some b => if Rltb (Best.dist b) 120 then Some (Best.id b) else None
      | None => None
      end
  end.

Definition onPointerDown (e : PointerEvent) (st : State) : State :=
  let p := getPointerPos e in
  let id := pickOverlay (overlays st) p.1 p.2 in
  let st := setSelectedId id st in
  if truthy id then
    let id := default "" id in
    match List.find (λ o, String.eqb (OverlayItem.id o) id) (overlays st) with
    | None => st
    | Some o =>
        setDrag (Some (DragState.mk id (p.1 - OverlayItem.x o)
                                      (p.2 - OverlayItem.y o))) st
    end
  else st.

Definition onPointerMove (e : PointerEvent) (st : State) : State :=
  match drag st with
  | None => st
  | Some d =>
      let p := getPointerPos e in
      setOverlays
        (map (λ o,
           if String.eqb (OverlayItem.id o) (DragState.id d)
           then OverlayItem.with_xy o (p.1 - DragState.offsetX d)
                                      (p.2 - DragState.offsetY d)
           else o)) st
  end.

Definition onPointerUp (st : State) : State := setDrag None st.

(** [Math.sign] *)
Definition sign (v : R) : R :=
  if Rltb 0 v then 1 else if Rltb v 0 then -1 else 0.

(** The new scale of the selected overlay on a wheel event without shift. *)
Definition nextScale (delta s : R) : R :=
  Tools.clamp (s * (if Rltb 0 delta then 0.92 else 1.08)) 0.2 4.

Definition onWheel (deltaY : R) (shiftKey : bool) (st : State) : State :=
  if truthy (selectedId st) then
    let sel := default "" (selectedId st) in
    let delta := sign deltaY in
    setOverlays
      (map (λ o,
         if negb (String.eqb (OverlayItem.id o) sel) then o
         else if shiftKey then
           OverlayItem.with_rotation o (OverlayItem.rotation o + delta * 0.08)
         else OverlayItem.with_scale o (nextScale delta (OverlayItem.scale o))))
      st
  else st.

End CanvasStage.

(* ===================================================================== *)
(** * src/App.tsx: the owner of [baseUrl] and [overlays] *)
(* ===================================================================== *)

Module App.
Local Open Scope R_scope.
Import CanvasStage.

(** [setBaseUrl(url)]: a state equal to the current one is no change and
    schedules no effect. *)
Definition onUpload (url : string) (st : State) : State :=
  if decide (baseImageUrl st = Some url) then st
  else baseImageEffect (with_baseImageUrl (Some url) st).

(** [addOverlay(src)]; [id] is the value [uid("ov")] returned. *)
Definition addOverlay (id src : string) (st : State) : State :=
  setOverlays
    (λ prev, prev ++ [OverlayItem.mk id image 300 300 0.6 0 (Some src) None]) st.

(** [addText()]; [id] is the value [uid("txt")] returned. *)
Definition addText (id : string) (st : State) : State :=
  setOverlays
    (λ prev, prev ++ [OverlayItem.mk id text 300 80 1 0 None (Some "LOL")]) st.

(** [prev.slice(0, -1)] *)
Definition removeLast (st : State) : State :=
  setOverlays (λ prev, removelast prev) st.

Definition clearAll (st : State) : State := setOverlays (λ _, []) st.

(** The first render of [App] and [CanvasStage], after both effects ran. *)
Definition mount : State :=
  overlayImagesEffect
    (baseImageEffect
       {| baseImageUrl := Some "/sample-face.jpg"; overlays := [];
          drag := None; selectedId := None; baseImg := None;
          overlayImgs := ∅; baseEffects := []; overlayEffects := [] |}).
End App.

(* ===================================================================== *)
(** * Events *)
(* ===================================================================== *)

Inductive Event :=
| Upload (url : string)
| AddOverlay (id src : string)
| AddText (id : string)
| RemoveLast
| ClearAll
| PointerDown (e : PointerEvent)
| PointerMove (e : PointerEvent)
| PointerUp
| Wheel (deltaY : R) (shiftKey : bool)
| BaseDecoded (eff : nat) (r : option HTMLImageElement)
| OverlayDecoded (eff k : nat) (r : option HTMLImageElement).

Definition step (st : CanvasStage.State) (ev : Event) : CanvasStage.State :=
  match ev with
  | Upload url => App.onUpload url st
  | AddOverlay id src => App.addOverlay id src st
  | AddText id => App.addText id st
  | RemoveLast => App.removeLast st
  | ClearAll => App.clearAll st
  | PointerDown e => CanvasStage.onPointerDown e st
  | PointerMove e => CanvasStage.onPointerMove e st
  | PointerUp => CanvasStage.onPointerUp st
  | Wheel deltaY shiftKey => CanvasStage.onWheel deltaY shiftKey st
  | BaseDecoded eff r => CanvasStage.baseDecoded eff r st
  | OverlayDecoded eff k r => CanvasStage.overlayDecoded eff k r st
  end.

Definition run (st : CanvasStage.State) (evs : list Event) : CanvasStage.State :=
  fold_left step evs st.

(* ===================================================================== *)
(** * Sample data *)
(* ===================================================================== *)

Definition sticker_at_origin : OverlayItem :=
  OverlayItem.mk "a" image 0 0 1 0 (Some "/overlays/hat.png"%string) None.

Definition label_at_20 : OverlayItem :=
  OverlayItem.mk "b" text 20 0 1 0 None (Some "LOL"%string).

(** A stage showing the two sample overlays, nothing selected. *)
Definition two_overlays : CanvasStage.State :=
  {| CanvasStage.baseImageUrl := None;
     CanvasStage.overlays := [sticker_at_origin; label_at_20];
     CanvasStage.drag := None; CanvasStage.selectedId := None;
     CanvasStage.baseImg := None; CanvasStage.overlayImgs := ∅;
     CanvasStage.baseEffects := []; CanvasStage.overlayEffects := [] |}.

Definition pointer_at_25_5 : PointerEvent :=
  {| clientX := 25; clientY := 5; rect_left := 0; rect_top := 0 |}.

(** A drag whose overlay is no longer in the collection. *)
Definition dragging_vanished : CanvasStage.State :=
  CanvasStage.setDrag (Some (DragState.mk "gone" 1 2)) two_overlays.

(** The two sample overlays with the sticker selected. *)
Definition selected_sticker : CanvasStage.State :=
  CanvasStage.setSelectedId (Some "a"%string) two_overlays.

(** A text overlay with the empty text. *)
Definition blank_label : OverlayItem :=
  OverlayItem.mk "c" text 20 0 1 0 None (Some ""%string).

(** A decoded photograph of 1200 x 800 pixels. *)
Definition sample_photo : HTMLImageElement :=
  {| img_src := "/sample-face.jpg"; naturalWidth := 1200; naturalHeight := 800 |}.

Definition hat_bitmap : HTMLImageElement :=
  {| img_src := "/overlays/hat.png"; naturalWidth := 256; naturalHeight := 128 |}.

Definition glasses_bitmap : HTMLImageElement :=
  {| img_src := "/overlays/glasses.png"; naturalWidth := 200;
     naturalHeight := 80 |}.

(** Two stickers as [App.addOverlay] creates them. *)
Definition two_stickers : list OverlayItem :=
  [OverlayItem.mk "a" image 300 300 0.6 0 (Some "/overlays/hat.png"%string) None;
   OverlayItem.mk "b" image 300 300 0.6 0 (Some "/overlays/glasses.png"%string)
     None].

Definition add_two_stickers : list Event :=
  [AddOverlay "a" "/overlays/hat.png"; AddOverlay "b" "/overlays/glasses.png"].

Definition photo_B : HTMLImageElement :=
  {| img_src := "blob:B"; naturalWidth := 640; naturalHeight := 480 |}.

(** The base image is changed to A, then to B before the decode of A has
    completed, and the decode of B (effect run 2) succeeds. *)
Definition A_then_B_loaded : list Event :=
  [Upload "blob:A"; Upload "blob:B"; BaseDecoded 2 (Some photo_B)].

(* ===================================================================== *)
(** * Vocabulary of the properties *)
(* ===================================================================== *)

(** The events that can occur while a drag lasts: every one but pointer-down
    (which starts a drag) and pointer-up (which ends it). *)
Definition during_drag (ev : Event) : Prop :=
  match ev with
  | PointerDown _ | PointerUp => False
  | _ => True
  end.

(** One wheel tick away from the user (zoom out) and one towards the user
    (zoom in), as functions on the scale of the selected overlay. *)
Definition zoomOut (s : R) : R := Tools.clamp (s * 0.92) 0.2 4.
Definition zoomIn (s : R) : R := Tools.clamp (s * 1.08) 0.2 4.

(** A context with the drawing state [s], nothing saved, nothing painted. *)
Definition starting_from (s : Canvas.DrawState) : Canvas.Context2D :=
  {| Canvas.cur := s; Canvas.stack := []; Canvas.painted := [] |}.

(** What one iteration of the overlay loop paints when it starts from the
    drawing state [base]. *)
Definition overlayPaints (overlayImgs : gmap string HTMLImageElement)
    (selectedId : option string) (base : Canvas.DrawState) (o : OverlayItem)
  : list Canvas.Paint :=
  Canvas.painted
    (CanvasStage.drawOverlay overlayImgs selectedId (starting_from base) o).

(** The local frame of overlay [o] over the transform [base]: translate to
    its position, then rotate by its rotation, then scale by its scale. *)
Definition localFrame (base : Canvas.Matrix) (o : OverlayItem) : Canvas.Matrix :=
  Canvas.mmul
    (Canvas.mmul
       (Canvas.mmul base
          (Canvas.translation (OverlayItem.x o) (OverlayItem.y o)))
       (Canvas.rotation (OverlayItem.rotation o)))
    (Canvas.scaling (OverlayItem.scale o) (OverlayItem.scale o)).

(** The overlay [o] at index [k] is the first nearest overlay of [l] to the
    point (x, y): no overlay of [l] is nearer, and every overlay before [k]
    is strictly farther.  It is the running minimum [pickOverlay] ends
    with. *)
Definition first_nearest (x y : R) (l : list OverlayItem) (k : nat)
    (o : OverlayItem) : Prop :=
  l !! k = Some o ∧
  (∀ j o', l !! j = Some o' →
           (CanvasStage.distTo x y o <= CanvasStage.distTo x y o')%R) ∧
  (∀ j o', (j < k)%nat → l !! j = Some o' →
           (CanvasStage.distTo x y o < CanvasStage.distTo x y o')%R).

(** The promises of a batch whose decodes have the outcomes [outcomes], in
    the order of [needed], once those of the indices [ks] have settled. *)
Definition batchState (outcomes : list (option HTMLImageElement))
    (ks : list nat) : list Decode :=
  imap (λ k r, if decide (k ∈ ks) then settled_as r else Pending) outcomes.

(** The decodes of the indices [ks] of run [eff] settle, in the order of
    [ks], each with its outcome. *)
Definition decodeEvents (eff : nat) (outcomes : list (option HTMLImageElement))
    (ks : list nat) : list Event :=
  map (λ k, OverlayDecoded eff k (default None (outcomes !! k))) ks.

(** Every closure of the base effect but the latest has been cancelled. *)
Definition superseded_cancelled (l : list BaseEffect.t) : Prop :=
  ∀ i c, l !! i = Some c → (S i < length l)%nat → BaseEffect.cancelled c = true.

(** Every closure of the overlay effect but the latest has been cancelled. *)
Definition superseded_batches_cancelled (l : list OverlayEffect.t) : Prop :=
  ∀ i c, l !! i = Some c → (S i < length l)%nat →
         OverlayEffect.cancelled c = true.

(** While [Promise.all] of the latest closure is not fulfilled, none of the
    ids it needs has a bitmap in the cache. *)
Definition open_batch_uncached (st : CanvasStage.State) : Prop :=
  ∀ c,
    CanvasStage.overlayEffects st
      !! pred (length (CanvasStage.overlayEffects st)) = Some c →
    CanvasStage.loadedPairs (OverlayEffect.needed c) (OverlayEffect.decodes c)
      = None →
    ∀ p, p ∈ OverlayEffect.needed c →
         CanvasStage.overlayImgs st !! p.1 = None.

Definition cache_inv (st : CanvasStage.State) : Prop :=
  superseded_batches_cancelled (CanvasStage.overlayEffects st) ∧
  open_batch_uncached st.

(** The sticker "a" is added and its decode succeeds. *)
Definition hat_loaded : list Event :=
  [AddOverlay "a" "/overlays/hat.png"; OverlayDecoded 1 0 (Some hat_bitmap)].

(** The events that leave the request of run [e] of the base effect open:
    every one but a change of the base image and the completion of the
    decode of run [e] itself. *)
Definition keeps_base_request (e : nat) (ev : Event) : Prop :=
  match ev with
  | Upload _ => False
  | BaseDecoded e' _ => e' ≠ e
  | _ => True
  end.

(** The events the engine handles itself: pointer and wheel input and the
    completions of decodes; the others are the edits made by [App]. *)
Definition engine_event (ev : Event) : Prop :=
  match ev with
  | PointerDown _ | PointerMove _ | PointerUp | Wheel _ _
  | BaseDecoded _ _ | OverlayDecoded _ _ _ => True
  | _ => False
  end.

(** What an overlay is, as opposed to where and how it is shown. *)
Definition identity_of (o : OverlayItem)
  : string * OverlayKind * option string * option string :=
  (OverlayItem.id o, OverlayItem.kind o, OverlayItem.src o, OverlayItem.text o).

(** What the hit-test reads of an overlay. *)
Definition anchor_of (o : OverlayItem) : string * R * R :=
  (OverlayItem.id o, OverlayItem.x o, OverlayItem.y o).

Definition not_pointer_down (ev : Event) : Prop :=
  match ev with
  | PointerDown _ => False
  | _ => True
  end.

(** The sticker of the samples, enlarged and turned. *)
Definition big_turned_sticker : OverlayItem :=
  OverlayItem.mk "a" image 0 0 4 1 (Some "/overlays/hat.png"%string) None.

Definition pointer_far_away : PointerEvent :=
  {| clientX := 1000; clientY := 0; rect_left := 0; rect_top := 0 |}.

Definition pointer_at_30_10 : PointerEvent :=
  {| clientX := 30; clientY := 10; rect_left := 0; rect_top := 0 |}.

(** A paint operation that strokes a rectangle: the selection outline. *)
Definition is_outline (p : Canvas.Paint) : bool :=
  match p with
  | Canvas.StrokeRect _ _ _ _ _ => true
  | _ => false
  end.

(** [o2] is [o1] but for its position. *)
Definition moved_only (o1 o2 : OverlayItem) : Prop :=
  OverlayItem.id o2 = OverlayItem.id o1 ∧
  OverlayItem.kind o2 = OverlayItem.kind o1 ∧
  OverlayItem.scale o2 = OverlayItem.scale o1 ∧
  OverlayItem.rotation o2 = OverlayItem.rotation o1 ∧
  OverlayItem.src o2 = OverlayItem.src o1 ∧
  OverlayItem.text o2 = OverlayItem.text o1.

(** [o2] is [o1] but for its rotation. *)
Definition rotated_only (o1 o2 : OverlayItem) : Prop :=
  OverlayItem.id o2 = OverlayItem.id o1 ∧
  OverlayItem.kind o2 = OverlayItem.kind o1 ∧
  OverlayItem.x o2 = OverlayItem.x o1 ∧
  OverlayItem.y o2 = OverlayItem.y o1 ∧
  OverlayItem.scale o2 = OverlayItem.scale o1 ∧
  OverlayItem.src o2 = OverlayItem.src o1 ∧
  OverlayItem.text o2 = OverlayItem.text o1.

(** The drawing state inside the frame of overlay [o], entered from the
    drawing state [base]. *)
Definition frameState (base : Canvas.DrawState) (o : OverlayItem)
  : Canvas.DrawState :=
  Canvas.set_transform (localFrame (Canvas.transform base) o) base.

(** The drawing state under which a text is filled. *)
Definition textState (s : Canvas.DrawState) : Canvas.DrawState :=
  {| Canvas.transform := Canvas.transform s;
     Canvas.fillStyle := "white";
     Canvas.strokeStyle := Canvas.strokeStyle s;
     Canvas.lineWidth := Canvas.lineWidth s;
     Canvas.font := "48px Impact, system-ui";
     Canvas.textAlign := "center";
     Canvas.textBaseline := "middle" |}.

(** The drawing state under which a selection outline is stroked. *)
Definition outlineState (s : Canvas.DrawState) : Canvas.DrawState :=
  {| Canvas.transform := Canvas.transform s;
     Canvas.fillStyle := Canvas.fillStyle s;
     Canvas.strokeStyle := "rgba(255,255,255,0.8)";
     Canvas.lineWidth := 2;
     Canvas.font := Canvas.font s;
     Canvas.textAlign := Canvas.textAlign s;
     Canvas.textBaseline := Canvas.textBaseline s |}.

(** The sample sticker with a cached bitmap, and the label, selected. *)
Definition hat_cache : gmap string HTMLImageElement :=
  {[ "a"%string := hat_bitmap ]}.

(* ===================================================================== *)
(** * Properties *)
(* ===================================================================== *)

Local Open Scope R_scope.

Lemma Rltb_lt (a b : R) : Rltb a b = true ↔ a < b.
Proof. unfold Rltb. destruct (Rlt_dec a b); split; intros; try done. Qed.

Lemma Rltb_ge (a b : R) : Rltb a b = false ↔ b <= a.
Proof.
  unfold Rltb. destruct (Rlt_dec a b); split; intros; try done; lra.
Qed.

Lemma truthy_Some (o : option string) :
  truthy o = true ↔ ∃ s, o = Some s ∧ s ≠ ""%string.
Proof.
  destruct o as [s|]; simpl; split.
  - intros H. exists s. split; [done|]. intros ->. done.
  - intros (s' & [= <-] & Hne). destruct (String.eqb_spec s ""); done.
  - done.
  - intros (s & ? & _). done.
Qed.

(** ** Hit-test *)

Section HitTest.
Import CanvasStage.
Variables x y : R.

Lemma distTo_nonneg (o : OverlayItem) : 0 <= distTo x y o.
Proof. apply sqrt_pos. Qed.

Lemma first_nearest_unique l k o k' o' :
  first_nearest x y l k o → first_nearest x y l k' o' → k = k' ∧ o = o'.
Proof.
  intros (Hk & Hmin & Hfirst) (Hk' & Hmin' & Hfirst').
  assert (k = k') as <-.
  { destruct (lt_eq_lt_dec k k') as [[Hlt | ->] | Hlt]; [|done|].
    - specialize (Hfirst' _ _ Hlt Hk). specialize (Hmin _ _ Hk'). lra.
    - specialize (Hfirst _ _ Hlt Hk'). specialize (Hmin' _ _ Hk). lra. }
  split; congruence.
Qed.

Lemma pickStep_fold_snoc l o best :
  fold_left (pickStep x y) (l ++ [o]) best =
  pickStep x y (fold_left (pickStep x y) l best) o.
Proof. by rewrite fold_left_app. Qed.

Lemma pick_fold_spec (l : list OverlayItem) :
  match fold_left (pickStep x y) l None with
  | None => l = []
  | Some b =>
      ∃ k o, first_nearest x y l k o ∧
             Best.id b = OverlayItem.id o ∧ Best.dist b = distTo x y o
  end.
Proof.
  induction l as [|o l IH] using rev_ind; [done|].
  rewrite pickStep_fold_snoc.
  destruct (fold_left (pickStep x y) l None) as [b|]; simpl.
  - destruct IH as (k & ok & (Hk & Hmin & Hfirst) & Hid & Hdist).
    destruct (Rltb (distTo x y o) (Best.dist b)) eqn:Hcmp.
    + apply Rltb_lt in Hcmp. rewrite Hdist in Hcmp.
      exists (length l), o. split; [|done]. split; [|split].
      * by rewrite lookup_app_r, Nat.sub_diag.
      * intros j o' [[_ Hj] | [_ <-]]%lookup_snoc_Some; [|lra].
        specialize (Hmin _ _ Hj). lra.
      * intros j o' Hlt Hj. rewrite lookup_app_l in Hj by done.
        specialize (Hmin _ _ Hj). lra.
    + apply Rltb_ge in Hcmp. rewrite Hdist in Hcmp.
      exists k, ok. split; [|done]. split; [|split].
      * rewrite lookup_app_l; [done|]. by eapply lookup_lt_Some.
      * intros j o' [[_ Hj] | [_ <-]]%lookup_snoc_Some; [eauto|done].
      * intros j o' Hlt Hj. apply (Hfirst j o' Hlt).
        rewrite lookup_app_l in Hj; [done|].
        apply lookup_lt_Some in Hk. lia.
  - subst l. exists 0%nat, o. split; [|done]. split; [done|split].
    + intros [|j] o'; simpl; [intros [= <-]; lra | done].
    + intros j o' Hlt. lia.
Qed.

(** The hit-test in terms of the first nearest overlay. *)
Lemma pickOverlay_first_nearest l k o :
  first_nearest x y l k o →
  pickOverlay l x y =
    if Rltb (distTo x y o) 120 then Some (OverlayItem.id o) else None.
Proof.
  intros Hfn. unfold pickOverlay.
  destruct l as [|o0 l0] eqn:El; [by destruct Hfn as [? _]|].
  rewrite <- El in *. clear El.
  pose proof (pick_fold_spec l) as Hspec.
  destruct (fold_left (pickStep x y) l None) as [b|].
  - destruct Hspec as (k' & o' & Hfn' & Hid & Hdist).
    destruct (first_nearest_unique _ _ _ _ _ Hfn Hfn') as [<- <-].
    by rewrite Hdist, Hid.
  - subst l. by destruct Hfn as [? _].
Qed.

Lemma first_nearest_exists l : l ≠ [] → ∃ k o, first_nearest x y l k o.
Proof.
  intros Hne. pose proof (pick_fold_spec l) as Hspec.
  destruct (fold_left (pickStep x y) l None) as [b|]; [|done].
  destruct Hspec as (k & o & Hfn & _). eauto.
Qed.
End HitTest.

Lemma distTo_value (x y : R) (o : OverlayItem) (d : R) :
  0 <= d →
  d * d = (OverlayItem.x o - x) * (OverlayItem.x o - x)
          + (OverlayItem.y o - y) * (OverlayItem.y o - y) →
  CanvasStage.distTo x y o = d.
Proof.
  intros Hd Hsq. unfold CanvasStage.distTo. cbv zeta.
  apply sqrt_lem_1; [|done|done]. rewrite <- Hsq. nra.
Qed.

(** C3 (as amended).  Hit-test: the result is none for the empty collection;
    otherwise some overlay [o] of the collection minimises the Euclidean
    distance from the pointer to the overlay's position, the result is the
    id of [o] when that minimum is below 120, and the result is none exactly
    when the minimum is at least 120. *)
Theorem pickOverlay_nearest_below_120 (ovs : list OverlayItem) (x y : R) :
  match ovs with
  | [] => CanvasStage.pickOverlay ovs x y = None
  | _ :: _ =>
      ∃ k o,
        ovs !! k = Some o ∧
        (∀ j o', ovs !! j = Some o' →
                 CanvasStage.distTo x y o <= CanvasStage.distTo x y o') ∧
        (CanvasStage.distTo x y o < 120 →
         CanvasStage.pickOverlay ovs x y = Some (OverlayItem.id o)) ∧
        (CanvasStage.pickOverlay ovs x y = None ↔
         120 <= CanvasStage.distTo x y o)
  end.
Proof.
  destruct ovs as [|o0 l]; [done|].
  destruct (first_nearest_exists x y (o0 :: l)) as (k & o & Hfn); [done|].
  pose proof (pickOverlay_first_nearest x y _ _ _ Hfn) as Hpick.
  destruct Hfn as (Hk & Hmin & _).
  exists k, o. split; [done|]. split; [done|].
  rewrite Hpick. destruct (Rltb _ 120) eqn:Hcmp.
  - apply Rltb_lt in Hcmp. split; [done|]. split; [done|lra].
  - apply Rltb_ge in Hcmp. split; [lra|done].
Qed.

(** C3, counterexample.  One overlay at the origin and the pointer at
    (120, 0): the minimum distance is exactly 120, it does not exceed 120,
    and yet the hit-test returns none. *)
Lemma pickOverlay_at_120_is_none :
  CanvasStage.distTo 120 0 sticker_at_origin = 120 ∧
  CanvasStage.pickOverlay [sticker_at_origin] 120 0 = None ∧
  ¬ (CanvasStage.pickOverlay [sticker_at_origin] 120 0 = None ↔
     120 < CanvasStage.distTo 120 0 sticker_at_origin).
Proof.
  assert (CanvasStage.distTo 120 0 sticker_at_origin = 120) as Hd.
  { apply distTo_value; simpl; lra. }
  assert (CanvasStage.pickOverlay [sticker_at_origin] 120 0 = None) as Hp.
  { unfold CanvasStage.pickOverlay. simpl. rewrite Hd.
    replace (Rltb 120 120) with false; [done|].
    symmetry. apply Rltb_ge. lra. }
  split; [done|]. split; [done|].
  rewrite Hd. intros [Hn _]. specialize (Hn Hp). lra.
Qed.

(** C8.  Hit-test tie-breaking: when the overlay at index [k] attains the
    minimal distance, that distance is below 120 and no overlay of a lower
    index attains the same distance, the hit-test returns the id of the
    overlay at [k], whatever overlays of higher index tie with it. *)
Theorem pickOverlay_tie_lowest_index
    (ovs : list OverlayItem) (x y : R) (k : nat) (o : OverlayItem) :
  ovs !! k = Some o →
  (∀ j o', ovs !! j = Some o' →
           CanvasStage.distTo x y o <= CanvasStage.distTo x y o') →
  (∀ j o', (j < k)%nat → ovs !! j = Some o' →
           CanvasStage.distTo x y o' ≠ CanvasStage.distTo x y o) →
  CanvasStage.distTo x y o < 120 →
  CanvasStage.pickOverlay ovs x y = Some (OverlayItem.id o).
Proof.
  intros Hk Hmin Hlow Hnear.
  rewrite (pickOverlay_first_nearest x y ovs k o).
  - by apply Rltb_lt in Hnear as ->.
  - split; [done|]. split; [done|].
    intros j o' Hlt Hj. specialize (Hmin _ _ Hj). specialize (Hlow _ _ Hlt Hj).
    lra.
Qed.

Lemma pickOverlay_tie_witness :
  CanvasStage.distTo 10 0 sticker_at_origin = 10 ∧
  CanvasStage.distTo 10 0 label_at_20 = 10 ∧
  CanvasStage.pickOverlay [sticker_at_origin; label_at_20] 10 0 = Some "a"%string.
Proof.
  assert (CanvasStage.distTo 10 0 sticker_at_origin = 10) as Ha.
  { apply distTo_value; simpl; lra. }
  assert (CanvasStage.distTo 10 0 label_at_20 = 10) as Hb.
  { apply distTo_value; simpl; lra. }
  split; [done|]. split; [done|].
  apply (pickOverlay_tie_lowest_index
           [sticker_at_origin; label_at_20] 10 0 0 sticker_at_origin).
  - reflexivity.
  - intros [|[|j]] o'; simpl; intros [= <-]; rewrite ?Ha, ?Hb; lra.
  - intros j o' Hlt. lia.
  - rewrite Ha. lra.
Defined.

(** ** The effects leave the interaction state alone *)

Section Frames.
Import CanvasStage.

Lemma overlayImagesEffect_frame st :
  overlays (overlayImagesEffect st) = overlays st ∧
  drag (overlayImagesEffect st) = drag st ∧
  selectedId (overlayImagesEffect st) = selectedId st ∧
  baseImg (overlayImagesEffect st) = baseImg st ∧
  overlayImgs (overlayImagesEffect st) = overlayImgs st ∧
  baseEffects (overlayImagesEffect st) = baseEffects st ∧
  baseImageUrl (overlayImagesEffect st) = baseImageUrl st.
Proof. unfold overlayImagesEffect. by destruct (neededOf _ _). Qed.

Lemma setOverlays_overlays f st : overlays (setOverlays f st) = f (overlays st).
Proof. unfold setOverlays. by rewrite (proj1 (overlayImagesEffect_frame _)). Qed.

Lemma setOverlays_drag f st : drag (setOverlays f st) = drag st.
Proof.
  unfold setOverlays.
  by rewrite (proj1 (proj2 (overlayImagesEffect_frame _))).
Qed.

Lemma setOverlays_selectedId f st :
  selectedId (setOverlays f st) = selectedId st.
Proof.
  unfold setOverlays.
  by rewrite (proj1 (proj2 (proj2 (overlayImagesEffect_frame _)))).
Qed.

Lemma baseImageEffect_frame st :
  overlays (baseImageEffect st) = overlays st ∧
  drag (baseImageEffect st) = drag st ∧
  selectedId (baseImageEffect st) = selectedId st ∧
  overlayImgs (baseImageEffect st) = overlayImgs st ∧
  overlayEffects (baseImageEffect st) = overlayEffects st.
Proof. unfold baseImageEffect. by destruct (truthy _). Qed.

Lemma baseDecoded_frame eff r st :
  overlays (baseDecoded eff r st) = overlays st ∧
  drag (baseDecoded eff r st) = drag st ∧
  selectedId (baseDecoded eff r st) = selectedId st ∧
  overlayImgs (baseDecoded eff r st) = overlayImgs st ∧
  overlayEffects (baseDecoded eff r st) = overlayEffects st.
Proof.
  unfold baseDecoded. destruct (baseEffects st !! eff) as [c|]; [|done].
  destruct (BaseEffect.awaiting c); [|done].
  destruct r; [|done]. by destruct (BaseEffect.cancelled c).
Qed.

Lemma overlayDecoded_frame eff k r st :
  overlays (overlayDecoded eff k r st) = overlays st ∧
  drag (overlayDecoded eff k r st) = drag st ∧
  selectedId (overlayDecoded eff k r st) = selectedId st ∧
  baseImg (overlayDecoded eff k r st) = baseImg st ∧
  baseEffects (overlayDecoded eff k r st) = baseEffects st.
Proof.
  unfold overlayDecoded. destruct (overlayEffects st !! eff) as [c|]; [|done].
  destruct (OverlayEffect.decodes c !! k) as [[| |]|]; try done.
  destruct (loadedPairs _ _); [|done].
  by destruct (OverlayEffect.cancelled c).
Qed.

Lemma onWheel_drag dy sh st : drag (onWheel dy sh st) = drag st.
Proof.
  unfold onWheel. destruct (truthy _); [|done]. apply setOverlays_drag.
Qed.

Lemma onPointerMove_drag e st : drag (onPointerMove e st) = drag st.
Proof.
  unfold onPointerMove. destruct (drag st) eqn:E; [|done].
  by rewrite setOverlays_drag.
Qed.

(** An event other than pointer-down and pointer-up keeps the drag state. *)
Lemma step_keeps_drag st ev :
  during_drag ev → drag (step st ev) = drag st.
Proof.
  destruct ev; simpl; try done; intros _.
  - unfold App.onUpload. case_decide; [done|].
    by rewrite (proj1 (proj2 (baseImageEffect_frame _))).
  - apply setOverlays_drag.
  - apply setOverlays_drag.
  - apply setOverlays_drag.
  - apply onPointerMove_drag.
  - apply onWheel_drag.
  - apply baseDecoded_frame.
  - apply overlayDecoded_frame.
Qed.

Lemma run_keeps_drag evs st :
  Forall during_drag evs → drag (run st evs) = drag st.
Proof.
  revert st. induction evs as [|ev evs IH]; intros st Hall; [done|].
  apply Forall_cons in Hall as [Hev Hall]. simpl.
  rewrite IH by done. by apply step_keeps_drag.
Qed.

Lemma pickOverlay_Some_elem ovs x y id :
  pickOverlay ovs x y = Some id → ∃ o, o ∈ ovs ∧ OverlayItem.id o = id.
Proof.
  intros Hpick. destruct ovs as [|o0 l]; [done|].
  destruct (first_nearest_exists x y (o0 :: l)) as (k & o & Hfn); [done|].
  rewrite (pickOverlay_first_nearest x y _ _ _ Hfn) in Hpick.
  destruct (Rltb _ _); [|done]. injection Hpick as <-.
  exists o. split; [|done]. destruct Hfn as [Hk _].
  by eapply list_elem_of_lookup_2.
Qed.

Lemma find_by_id (ovs : list OverlayItem) (id : string) :
  (∃ o, o ∈ ovs ∧ OverlayItem.id o = id) →
  ∃ o, List.find (λ o, String.eqb (OverlayItem.id o) id) ovs = Some o ∧
       o ∈ ovs ∧ OverlayItem.id o = id.
Proof.
  intros (o & Hin & Hid). induction ovs as [|o1 l IH]; [by apply elem_of_nil in Hin|].
  simpl. destruct (String.eqb_spec (OverlayItem.id o1) id) as [Heq|Hne].
  - exists o1. split; [done|]. split; [left|done].
  - apply elem_of_cons in Hin as [-> | Hin]; [done|].
    destruct (IH Hin) as (o' & Hf & Hin' & Hid').
    exists o'. split; [done|]. split; [by right|done].
Qed.

Lemma pickOverlay_singleton o x y :
  distTo x y o < 120 → pickOverlay [o] x y = Some (OverlayItem.id o).
Proof.
  intros Hnear. unfold pickOverlay. simpl.
  by apply Rltb_lt in Hnear as ->.
Qed.
End Frames.

(** ** Dragging *)

Section Drag.
Import CanvasStage.

Lemma onPointerDown_starts_drag st e id :
  pickOverlay (overlays st) (getPointerPos e).1 (getPointerPos e).2 = Some id →
  id ≠ ""%string →
  ∃ o, List.find (λ o, String.eqb (OverlayItem.id o) id) (overlays st) = Some o ∧
       o ∈ overlays st ∧ OverlayItem.id o = id ∧
       selectedId (onPointerDown e st) = Some id ∧
       overlays (onPointerDown e st) = overlays st ∧
       drag (onPointerDown e st) =
         Some (DragState.mk id ((getPointerPos e).1 - OverlayItem.x o)
                               ((getPointerPos e).2 - OverlayItem.y o)).
Proof.
  intros Hpick Hne.
  destruct (find_by_id (overlays st) id) as (o & Hfind & Hin & Hid).
  { by eapply pickOverlay_Some_elem. }
  exists o. split; [done|]. split; [done|]. split; [done|].
  unfold onPointerDown. cbv zeta. rewrite Hpick.
  replace (truthy (Some id)) with true
    by (symmetry; apply truthy_Some; eauto).
  simpl. by rewrite Hfind.
Qed.

Lemma onPointerMove_overlays st e d :
  drag st = Some d →
  overlays (onPointerMove e st) =
    map (λ o, if String.eqb (OverlayItem.id o) (DragState.id d)
              then OverlayItem.with_xy o
                     ((getPointerPos e).1 - DragState.offsetX d)
                     ((getPointerPos e).2 - DragState.offsetY d)
              else o) (overlays st).
Proof.
  intros Hd. unfold onPointerMove. rewrite Hd. by rewrite setOverlays_overlays.
Qed.
End Drag.

(** C4.  Drag invariant: a pointer-down at [p0] that hits the overlay of id
    [id] starts a drag on the overlay [o] found under that id (the first of
    the collection), at position q0 = (x o, y o), with the grab offset
    p0 - q0.  Through any events other
    than pointer-down and pointer-up the drag state, and so the offset, is
    unchanged, and a move event at pointer position [p] that follows them
    puts every overlay of that id at p - offset (its [x] and [y] are those
    of p - offset), keeps all its other fields, leaves every other overlay
    as it was and keeps the length and the order of the collection. *)
Theorem drag_invariant
    (st : CanvasStage.State) (e0 : PointerEvent) (id : string) :
  let p0 := CanvasStage.getPointerPos e0 in
  CanvasStage.pickOverlay (CanvasStage.overlays st) p0.1 p0.2 = Some id →
  id ≠ ""%string →
  ∃ o,
    List.find (λ o, String.eqb (OverlayItem.id o) id) (CanvasStage.overlays st)
      = Some o ∧
    o ∈ CanvasStage.overlays st ∧ OverlayItem.id o = id ∧
    let offset := (p0.1 - OverlayItem.x o, p0.2 - OverlayItem.y o) in
    let st0 := step st (PointerDown e0) in
    CanvasStage.drag st0 = Some (DragState.mk id offset.1 offset.2) ∧
    ∀ evs, Forall during_drag evs →
      let st1 := run st0 evs in
      CanvasStage.drag st1 = Some (DragState.mk id offset.1 offset.2) ∧
      ∀ e,
        let p := CanvasStage.getPointerPos e in
        let st2 := step st1 (PointerMove e) in
        CanvasStage.drag st2 = Some (DragState.mk id offset.1 offset.2) ∧
        length (CanvasStage.overlays st2) = length (CanvasStage.overlays st1) ∧
        ∀ i o1, CanvasStage.overlays st1 !! i = Some o1 →
          ∃ o2, CanvasStage.overlays st2 !! i = Some o2 ∧
            (OverlayItem.id o1 = id →
             OverlayItem.x o2 = p.1 - offset.1 ∧
             OverlayItem.y o2 = p.2 - offset.2 ∧
             moved_only o1 o2) ∧
            (OverlayItem.id o1 ≠ id → o2 = o1).
Proof.
  intros p0 Hpick Hne.
  destruct (onPointerDown_starts_drag st e0 id Hpick Hne)
    as (o & Hfind & Hin & Hid & _ & _ & Hdrag).
  exists o. split; [done|]. split; [done|]. split; [done|]. cbv zeta. simpl.
  split; [done|]. intros evs Hevs.
  assert (CanvasStage.drag (run (CanvasStage.onPointerDown e0 st) evs) =
          Some (DragState.mk id (p0.1 - OverlayItem.x o) (p0.2 - OverlayItem.y o)))
    as Hd1 by (by rewrite run_keeps_drag).
  split; [done|]. intros e.
  split; [by rewrite onPointerMove_drag|].
  rewrite (onPointerMove_overlays _ e _ Hd1). simpl.
  split; [by rewrite length_map|].
  intros i o1 Hi. rewrite list_lookup_fmap, Hi. simpl.
  eexists. split; [done|].
  destruct (String.eqb_spec (OverlayItem.id o1) id); split; try done;
    intros _; by repeat split.
Qed.

Lemma drag_invariant_witness :
  ∃ o2,
    CanvasStage.overlays
      (step (step two_overlays (PointerDown pointer_at_25_5))
         (PointerMove pointer_at_30_10)) !! 1%nat = Some o2 ∧
    OverlayItem.x o2 = 30 - 0 - (25 - 0 - 20) ∧
    OverlayItem.y o2 = 10 - 0 - (5 - 0 - 0) ∧
    OverlayItem.id o2 = "b"%string.
Proof.
  assert (CanvasStage.distTo (25 - 0) (5 - 0) sticker_at_origin
          = sqrt (25 * 25 + 5 * 5)) as Ha.
  { unfold CanvasStage.distTo. simpl. f_equal. lra. }
  assert (CanvasStage.distTo (25 - 0) (5 - 0) label_at_20
          = sqrt (5 * 5 + 5 * 5)) as Hb.
  { unfold CanvasStage.distTo. simpl. f_equal. lra. }
  assert (sqrt (5 * 5 + 5 * 5) < sqrt (25 * 25 + 5 * 5)) as Hlt.
  { apply sqrt_lt_1; lra. }
  assert (sqrt (5 * 5 + 5 * 5) < 120) as Hnear.
  { rewrite <- (sqrt_square 120) by lra. apply sqrt_lt_1; lra. }
  assert (CanvasStage.pickOverlay (CanvasStage.overlays two_overlays)
            (CanvasStage.getPointerPos pointer_at_25_5).1
            (CanvasStage.getPointerPos pointer_at_25_5).2 = Some "b"%string)
    as Hpick.
  { simpl. unfold CanvasStage.pickOverlay. simpl. rewrite Ha, Hb.
    apply Rltb_lt in Hlt as ->. simpl.
    by apply Rltb_lt in Hnear as ->. }
  destruct (drag_invariant two_overlays pointer_at_25_5 "b" Hpick)
    as (o & Hfind & _ & _ & _ & Hrun); [done|].
  simpl in Hfind. injection Hfind as <-.
  destruct (Hrun []) as [_ Hmove]; [constructor|].
  destruct (Hmove pointer_at_30_10) as (_ & _ & Hat).
  destruct (Hat 1%nat label_at_20) as (o2 & Ho2 & Hpos & _).
  - destruct (onPointerDown_starts_drag two_overlays pointer_at_25_5 "b" Hpick)
      as (_ & _ & _ & _ & _ & Hovs & _); [done|].
    change (CanvasStage.overlays
              (CanvasStage.onPointerDown pointer_at_25_5 two_overlays)
            !! 1%nat = Some label_at_20).
    by rewrite Hovs.
  - destruct Hpos as (Hx & Hy & Hid & _); [done|].
    exists o2. split; [exact Ho2|]. split; [exact Hx|]. split; [exact Hy|].
    exact Hid.
Defined.

(** C9.  A move event while the drag state holds an id that no overlay of
    the collection carries produces a collection equal to the input,
    element by element and in the same order. *)
Theorem onPointerMove_vanished_id
    (st : CanvasStage.State) (e : PointerEvent) (d : DragState.t) :
  CanvasStage.drag st = Some d →
  (∀ o, o ∈ CanvasStage.overlays st → OverlayItem.id o ≠ DragState.id d) →
  CanvasStage.overlays (step st (PointerMove e)) = CanvasStage.overlays st.
Proof.
  intros Hd Hgone. simpl. rewrite (onPointerMove_overlays st e d Hd).
  rewrite <- (map_id (CanvasStage.overlays st)) at 2.
  apply map_ext_in. intros o Hin%list_elem_of_In.
  destruct (String.eqb_spec (OverlayItem.id o) (DragState.id d)) as [Heq|]; [|done].
  by destruct (Hgone o Hin).
Qed.

Lemma onPointerMove_vanished_id_witness :
  CanvasStage.overlays (step dragging_vanished (PointerMove pointer_at_25_5))
  = [sticker_at_origin; label_at_20].
Proof.
  apply (onPointerMove_vanished_id dragging_vanished pointer_at_25_5
           (DragState.mk "gone" 1 2)).
  - reflexivity.
  - intros o Hin. simpl in Hin.
    apply elem_of_cons in Hin as [-> | Hin]; [done|].
    apply elem_of_cons in Hin as [-> | Hin]; [done|].
    by apply elem_of_nil in Hin.
Defined.

(** ** Wheel scaling *)

Section Wheel.
Import CanvasStage.

Lemma clamp_range n : 0.2 <= Tools.clamp n 0.2 4 <= 4.
Proof.
  unfold Tools.clamp, Rmax, Rmin.
  repeat destruct (Rle_dec _ _); lra.
Qed.

Lemma clamp_inside n : 0.2 <= n <= 4 → Tools.clamp n 0.2 4 = n.
Proof.
  intros Hn. unfold Tools.clamp, Rmax, Rmin.
  repeat destruct (Rle_dec _ _); lra.
Qed.

Lemma clamp_below n : n <= 0.2 → Tools.clamp n 0.2 4 = 0.2.
Proof.
  intros Hn. unfold Tools.clamp, Rmax, Rmin.
  repeat destruct (Rle_dec _ _); lra.
Qed.

Lemma clamp_above n : 4 <= n → Tools.clamp n 0.2 4 = 4.
Proof.
  intros Hn. unfold Tools.clamp, Rmax, Rmin.
  repeat destruct (Rle_dec _ _); lra.
Qed.

Lemma nextScale_out dy s : 0 < dy → nextScale (sign dy) s = zoomOut s.
Proof.
  intros Hdy. unfold nextScale, sign, zoomOut.
  apply Rltb_lt in Hdy as ->.
  replace (Rltb 0 1) with true; [done|]. symmetry. apply Rltb_lt. lra.
Qed.

Lemma nextScale_in dy s : dy <= 0 → nextScale (sign dy) s = zoomIn s.
Proof.
  intros Hdy. unfold nextScale, sign, zoomIn.
  apply Rltb_ge in Hdy as ->.
  destruct (Rltb dy 0).
  - replace (Rltb 0 (-1)) with false; [done|]. symmetry. apply Rltb_ge. lra.
  - replace (Rltb 0 0) with false; [done|]. symmetry. apply Rltb_ge. lra.
Qed.

Lemma zoomOut_range s : 0.2 <= zoomOut s <= 4.
Proof. apply clamp_range. Qed.

Lemma zoomIn_range s : 0.2 <= zoomIn s <= 4.
Proof. apply clamp_range. Qed.

(** After a first clamped value [s], [k] further zoom-outs give
    [max(0.2, s * 0.92^k)]. *)
Lemma zoomOut_iter k s :
  0.2 <= s <= 4 → Nat.iter k zoomOut s = Rmax 0.2 (s * 0.92 ^ k).
Proof.
  intros Hs. induction k as [|k IH].
  - simpl. unfold Rmax. destruct (Rle_dec _ _); lra.
  - simpl. rewrite IH. unfold zoomOut.
    assert (0 < 0.92 ^ k) as Hpow by (apply pow_lt; lra).
    unfold Rmax at 1. destruct (Rle_dec 0.2 (s * 0.92 ^ k)) as [Hle|Hgt].
    + assert (s * 0.92 ^ k <= 4).
      { assert (0.92 ^ k <= 1) by (rewrite <- (pow1 k); apply pow_incr; lra).
        nra. }
      unfold Tools.clamp, Rmax, Rmin.
      repeat destruct (Rle_dec _ _); lra.
    + rewrite clamp_below by lra.
      unfold Rmax. destruct (Rle_dec _ _); lra.
Qed.

Lemma zoomIn_iter k s :
  0.2 <= s <= 4 → Nat.iter k zoomIn s = Rmin 4 (s * 1.08 ^ k).
Proof.
  intros Hs. induction k as [|k IH].
  - simpl. unfold Rmin. destruct (Rle_dec _ _); lra.
  - simpl. rewrite IH. unfold zoomIn.
    assert (1 <= 1.08 ^ k) as Hpow by (apply pow_R1_Rle; lra).
    unfold Rmin at 1. destruct (Rle_dec 4 (s * 1.08 ^ k)) as [Hle|Hgt].
    + rewrite clamp_above by lra.
      unfold Rmin. destruct (Rle_dec _ _); lra.
    + assert (0.2 <= s * 1.08 ^ k) by nra.
      unfold Tools.clamp, Rmax, Rmin.
      repeat destruct (Rle_dec _ _); lra.
Qed.

Lemma iter_succ_r {A} (f : A → A) n a :
  Nat.iter (S n) f a = Nat.iter n f (f a).
Proof. induction n as [|n IH]; [done|]. simpl in *. by rewrite IH. Qed.

Lemma iter_add {A} (f : A → A) m n a :
  Nat.iter (m + n) f a = Nat.iter m f (Nat.iter n f a).
Proof. induction m as [|m IH]; [done|]. simpl. by rewrite IH. Qed.

(** Zoom-out reaches the lower bound after 37 events, from any scale. *)
Lemma zoomOut_converges n s : (37 ≤ n)%nat → Nat.iter n zoomOut s = 0.2.
Proof.
  intros Hn.
  assert (Nat.iter 37 zoomOut s = 0.2) as H37.
  { rewrite (iter_succ_r zoomOut 36), zoomOut_iter by apply zoomOut_range.
    pose proof (zoomOut_range s).
    unfold Rmax. destruct (Rle_dec _ _); [|done]. nra. }
  replace n with ((n - 37) + 37)%nat by lia.
  rewrite iter_add, H37.
  induction (n - 37)%nat as [|m IH]; [done|].
  simpl. rewrite IH. unfold zoomOut. apply clamp_below. lra.
Qed.

(** Zoom-in reaches the upper bound after 40 events, from any scale. *)
Lemma zoomIn_converges n s : (40 ≤ n)%nat → Nat.iter n zoomIn s = 4.
Proof.
  intros Hn.
  assert (Nat.iter 40 zoomIn s = 4) as H40.
  { rewrite (iter_succ_r zoomIn 39), zoomIn_iter by apply zoomIn_range.
    pose proof (zoomIn_range s).
    unfold Rmin. destruct (Rle_dec _ _); [done|]. nra. }
  replace n with ((n - 40) + 40)%nat by lia.
  rewrite iter_add, H40.
  induction (n - 40)%nat as [|m IH]; [done|].
  simpl. rewrite IH. unfold zoomIn. apply clamp_above. lra.
Qed.

Lemma iter_range (f : R → R) n s :
  (∀ s, 0.2 <= f s <= 4) → (1 ≤ n)%nat → 0.2 <= Nat.iter n f s <= 4.
Proof. intros Hf Hn. destruct n as [|n]; [lia|]. simpl. apply Hf. Qed.

Lemma onWheel_overlays dy st sid :
  selectedId st = Some sid → sid ≠ ""%string →
  overlays (onWheel dy false st) =
    map (λ o, if String.eqb (OverlayItem.id o) sid
              then OverlayItem.with_scale o
                     (nextScale (sign dy) (OverlayItem.scale o))
              else o) (overlays st).
Proof.
  intros Hsel Hne. unfold onWheel.
  replace (truthy (selectedId st)) with true
    by (symmetry; apply truthy_Some; eauto).
  rewrite setOverlays_overlays, Hsel. simpl.
  apply map_ext. intros o. by destruct (String.eqb _ _).
Qed.

Lemma onWheel_selectedId dy sh st :
  selectedId (onWheel dy sh st) = selectedId st.
Proof.
  unfold onWheel. destruct (truthy _); [|done]. apply setOverlays_selectedId.
Qed.

(** The collection after a run of wheel events without shift. *)
Lemma run_wheel_overlays deltas st sid :
  selectedId st = Some sid → sid ≠ ""%string →
  overlays (run st (map (λ dy, Wheel dy false) deltas)) =
    map (λ o, if String.eqb (OverlayItem.id o) sid
              then OverlayItem.with_scale o
                     (fold_left (λ s dy, nextScale (sign dy) s) deltas
                                (OverlayItem.scale o))
              else o) (overlays st).
Proof.
  intros Hsel Hne. revert st Hsel.
  induction deltas as [|dy deltas IH]; intros st Hsel.
  - simpl. rewrite <- (map_id (overlays st)) at 1.
    apply map_ext. intros o. destruct o. by destruct (String.eqb _ _).
  - simpl. rewrite IH by (by rewrite onWheel_selectedId).
    rewrite (onWheel_overlays dy st sid) by done.
    rewrite map_map. apply map_ext. intros o.
    destruct (String.eqb (OverlayItem.id o) sid) eqn:E; simpl; by rewrite E.
Qed.

Lemma fold_zoomOut deltas s :
  Forall (λ dy, 0 < dy) deltas →
  fold_left (λ s dy, nextScale (sign dy) s) deltas s
  = Nat.iter (length deltas) zoomOut s.
Proof.
  intros Hall. revert s. induction Hall as [|dy deltas Hdy _ IH]; intros s.
  - done.
  - cbn [fold_left length]. rewrite IH, nextScale_out by done.
    by rewrite iter_succ_r.
Qed.

Lemma fold_zoomIn deltas s :
  Forall (λ dy, dy <= 0) deltas →
  fold_left (λ s dy, nextScale (sign dy) s) deltas s
  = Nat.iter (length deltas) zoomIn s.
Proof.
  intros Hall. revert s. induction Hall as [|dy deltas Hdy _ IH]; intros s.
  - done.
  - cbn [fold_left length]. rewrite IH, nextScale_in by done.
    by rewrite iter_succ_r.
Qed.
End Wheel.

(** C5.  Wheel scaling, with an overlay selected ([selectedId] is a non-empty
    id [sid]).  (1) A wheel event without the modifier key replaces the
    scale of every overlay of id [sid] by
    [clamp(scale * (direction > 0 ? 0.92 : 1.08), 0.2, 4)], direction being
    the sign of [deltaY], and changes nothing else.  (2) Under repeated
    zoom-out events ([deltaY > 0]) the scale is within [0.2, 4] from the
    first event on and is exactly 0.2 from the 37th event on.  (3) Under
    repeated zoom-in events ([deltaY <= 0]) the scale is within [0.2, 4]
    from the first event on and is exactly 4 from the 40th event on. *)
Theorem wheel_scaling (st : CanvasStage.State) (sid : string) :
  CanvasStage.selectedId st = Some sid →
  sid ≠ ""%string →
  (∀ deltaY,
     let st' := step st (Wheel deltaY false) in
     length (CanvasStage.overlays st') = length (CanvasStage.overlays st) ∧
     ∀ i o, CanvasStage.overlays st !! i = Some o →
       ∃ o', CanvasStage.overlays st' !! i = Some o' ∧
         (OverlayItem.id o = sid →
          o' = OverlayItem.with_scale o
                 (Tools.clamp
                    (OverlayItem.scale o *
                     (if Rltb 0 (CanvasStage.sign deltaY) then 0.92 else 1.08))
                    0.2 4)) ∧
         (OverlayItem.id o ≠ sid → o' = o)) ∧
  (∀ deltas, Forall (λ dy, 0 < dy) deltas →
     ∀ i o, CanvasStage.overlays st !! i = Some o → OverlayItem.id o = sid →
       ∃ o', CanvasStage.overlays
               (run st (map (λ dy, Wheel dy false) deltas)) !! i = Some o' ∧
         ((1 ≤ length deltas)%nat →
          0.2 <= OverlayItem.scale o' <= 4) ∧
         ((37 ≤ length deltas)%nat → OverlayItem.scale o' = 0.2)) ∧
  (∀ deltas, Forall (λ dy, dy <= 0) deltas →
     ∀ i o, CanvasStage.overlays st !! i = Some o → OverlayItem.id o = sid →
       ∃ o', CanvasStage.overlays
               (run st (map (λ dy, Wheel dy false) deltas)) !! i = Some o' ∧
         ((1 ≤ length deltas)%nat →
          0.2 <= OverlayItem.scale o' <= 4) ∧
         ((40 ≤ length deltas)%nat → OverlayItem.scale o' = 4)).
Proof.
  intros Hsel Hne. split; [|split].
  - intros deltaY. simpl.
    rewrite (onWheel_overlays deltaY st sid Hsel Hne).
    split; [by rewrite length_map|].
    intros i o Hi. rewrite list_lookup_fmap, Hi. simpl.
    eexists. split; [done|].
    destruct (String.eqb_spec (OverlayItem.id o) sid); split; done.
  - intros deltas Hall i o Hi Hid.
    rewrite (run_wheel_overlays deltas st sid Hsel Hne).
    rewrite list_lookup_fmap, Hi. simpl.
    apply String.eqb_eq in Hid as ->.
    eexists. split; [done|]. simpl. rewrite fold_zoomOut by done.
    split.
    + apply iter_range, zoomOut_range.
    + apply zoomOut_converges.
  - intros deltas Hall i o Hi Hid.
    rewrite (run_wheel_overlays deltas st sid Hsel Hne).
    rewrite list_lookup_fmap, Hi. simpl.
    apply String.eqb_eq in Hid as ->.
    eexists. split; [done|]. simpl. rewrite fold_zoomIn by done.
    split.
    + apply iter_range, zoomIn_range.
    + apply zoomIn_converges.
Qed.

Lemma wheel_scaling_witness :
  ∃ o', CanvasStage.overlays (step selected_sticker (Wheel 1 false)) !! 0%nat
        = Some o' ∧
        o' = OverlayItem.with_scale sticker_at_origin
               (Tools.clamp
                  (1 * (if Rltb 0 (CanvasStage.sign 1) then 0.92 else 1.08))
                  0.2 4).
Proof.
  destruct (wheel_scaling selected_sticker "a") as (Hone & _ & _).
  - reflexivity.
  - done.
  - destruct (Hone 1) as [_ Hat].
    destruct (Hat 0%nat sticker_at_origin) as (o' & Ho' & Hsame & _);
      [reflexivity|].
    exists o'. split; [done|]. by apply Hsame.
Defined.

(** ** Rendering *)

Section Render.
Import Canvas CanvasStage.
Variable overlayImgs : gmap string HTMLImageElement.
Variable selectedId : option string.

Lemma context_eta (ctx : Context2D) :
  {| cur := cur ctx; stack := stack ctx; painted := painted ctx |} = ctx.
Proof. by destruct ctx. Qed.

(** The shape of an overlay adds its paints to the record and leaves the
    stack of saved states alone. *)
Lemma drawShape_painted o ctx :
  stack (drawShape overlayImgs selectedId o ctx) = stack ctx ∧
  painted (drawShape overlayImgs selectedId o ctx) =
    painted ctx ++
    painted (drawShape overlayImgs selectedId o (starting_from (cur ctx))).
Proof.
  unfold drawShape, starting_from.
  destruct (OverlayItem.kind o).
  - destruct (truthy (OverlayItem.src o)); [|by rewrite app_nil_r].
    destruct (overlayImgs !! OverlayItem.id o) as [img|];
      [|by rewrite app_nil_r].
    destruct (is_selected selectedId o); simpl;
      by rewrite <- ?app_assoc.
  - destruct (truthy (OverlayItem.text o)); [|by rewrite app_nil_r].
    destruct (is_selected selectedId o); simpl;
      by rewrite <- ?app_assoc.
Qed.

(** One iteration of the loop: the drawing state and the stack are as
    before, and the paints of the overlay depend on the drawing state
    only. *)
Lemma drawOverlay_frame ctx o :
  cur (drawOverlay overlayImgs selectedId ctx o) = cur ctx ∧
  stack (drawOverlay overlayImgs selectedId ctx o) = stack ctx ∧
  painted (drawOverlay overlayImgs selectedId ctx o) =
    painted ctx ++ overlayPaints overlayImgs selectedId (cur ctx) o.
Proof.
  unfold overlayPaints, drawOverlay. cbv zeta.
  set (framed c :=
         scale (OverlayItem.scale o) (OverlayItem.scale o)
           (rotate (OverlayItem.rotation o)
              (translate (OverlayItem.x o) (OverlayItem.y o) (save c)))).
  destruct (drawShape_painted o (framed ctx)) as [Hst Hp].
  destruct (drawShape_painted o (framed (starting_from (cur ctx))))
    as [Hst0 Hp0].
  cbv beta delta [framed] in Hst, Hp, Hst0, Hp0. clear framed.
  unfold restore. rewrite Hst, Hst0. simpl.
  split; [done|]. split; [done|]. rewrite Hp, Hp0. by simpl.
Qed.

Lemma drawOverlays_frame ovs ctx :
  cur (fold_left (drawOverlay overlayImgs selectedId) ovs ctx) = cur ctx ∧
  stack (fold_left (drawOverlay overlayImgs selectedId) ovs ctx) = stack ctx ∧
  painted (fold_left (drawOverlay overlayImgs selectedId) ovs ctx) =
    painted ctx ++
    concat (map (overlayPaints overlayImgs selectedId (cur ctx)) ovs).
Proof.
  revert ctx. induction ovs as [|o ovs IH]; intros ctx.
  - simpl. by rewrite app_nil_r.
  - simpl. destruct (IH (drawOverlay overlayImgs selectedId ctx o))
      as (Hc & Hs & Hp).
    destruct (drawOverlay_frame ctx o) as (Hc1 & Hs1 & Hp1).
    rewrite Hc, Hs, Hp, Hc1, Hs1, Hp1. by rewrite <- app_assoc.
Qed.

(** Every paint of an overlay is issued under the local frame of the
    overlay and draws a shape centred at the local origin; a text is
    anchored there with centred alignment. *)
Lemma overlayPaints_local base o :
  Forall (λ p,
      transform (state_of p) = localFrame (transform base) o ∧
      centre_of p = (0, 0) ∧
      match p with
      | FillText s _ _ _ =>
          textAlign s = "center"%string ∧ textBaseline s = "middle"%string
      | _ => True
      end)
    (overlayPaints overlayImgs selectedId base o).
Proof.
  unfold overlayPaints, drawOverlay, drawShape, starting_from, localFrame.
  cbv zeta.
  destruct (OverlayItem.kind o).
  - destruct (truthy (OverlayItem.src o)); [|by constructor].
    destruct (overlayImgs !! OverlayItem.id o) as [img|]; [|by constructor].
    destruct (is_selected selectedId o); simpl;
      repeat constructor; simpl; f_equal; lra.
  - destruct (truthy (OverlayItem.text o)); [|by constructor].
    destruct (is_selected selectedId o); simpl;
      repeat constructor; simpl; f_equal; lra.
Qed.

(** The local frame maps a point by scaling it, then rotating it, then
    translating it to the position of the overlay. *)
Lemma localFrame_apply base o u v :
  apply (localFrame base o) (u, v) =
  apply base
    (OverlayItem.x o
     + (cos (OverlayItem.rotation o) * (OverlayItem.scale o * u)
        - sin (OverlayItem.rotation o) * (OverlayItem.scale o * v)),
     OverlayItem.y o
     + (sin (OverlayItem.rotation o) * (OverlayItem.scale o * u)
        + cos (OverlayItem.rotation o) * (OverlayItem.scale o * v))).
Proof.
  unfold localFrame, apply, mmul, translation, rotation, scaling. simpl.
  f_equal; ring.
Qed.
End Render.

Section RenderFacts.
Import Canvas CanvasStage.

Lemma Forall_concat_map {A B} (P : B → Prop) (f : A → list B) (l : list A) :
  (∀ a, a ∈ l → Forall P (f a)) → Forall P (concat (map f l)).
Proof.
  induction l as [|a l IH]; intros Hall; [constructor|].
  simpl. apply Forall_app. split.
  - apply Hall. left.
  - apply IH. intros b Hb. apply Hall. by right.
Qed.

Lemma dprOf_nonzero d : dprOf d ≠ 0%R.
Proof. unfold dprOf. destruct (Req_dec_T d 0); lra. Qed.

(** The background and the base layer: what they paint, and the drawing
    state they leave for the overlay loop. *)
Lemma base_layer_paints baseImg w h k :
  let layer := drawBase baseImg w h (drawBackground w h k fresh) in
  transform (cur layer) = scaling k k ∧
  Forall (λ p, transform (state_of p) = scaling k k ∧ is_outline p = false)
    (painted layer).
Proof.
  cbv zeta. unfold drawBase, drawBackground. cbv zeta.
  destruct baseImg as [img|]; simpl.
  - split; [done|]. by repeat constructor.
  - split; [done|]. by repeat constructor.
Qed.


Lemma elem_of_concat_map {A B} (f : A → list B) (l : list A) a b :
  a ∈ l → b ∈ f a → b ∈ concat (map f l).
Proof.
  induction l as [|c l IH]; [by intros ?%elem_of_nil|].
  intros [->|Ha]%elem_of_cons Hb; simpl; apply elem_of_app.
  - by left.
  - right. by apply IH.
Qed.

Lemma overlayPaints_image overlayImgs selectedId base o img :
  OverlayItem.kind o = image →
  truthy (OverlayItem.src o) = true →
  overlayImgs !! OverlayItem.id o = Some img →
  DrawImage (set_transform (localFrame (transform base) o) base) img
    (- naturalWidth img / 2) (- naturalHeight img / 2)
    (naturalWidth img) (naturalHeight img)
  ∈ overlayPaints overlayImgs selectedId base o.
Proof.
  intros Hk Hs Hc. unfold overlayPaints, drawOverlay, drawShape, starting_from.
  cbv zeta. rewrite Hk, Hs, Hc.
  destruct (is_selected selectedId o); simpl; left.
Qed.

Lemma overlayPaints_text overlayImgs selectedId base o :
  OverlayItem.kind o = text →
  truthy (OverlayItem.text o) = true →
  ∃ s, transform s = localFrame (transform base) o ∧
       textAlign s = "center"%string ∧ textBaseline s = "middle"%string ∧
       font s = "48px Impact, system-ui"%string ∧
       FillText s (default ""%string (OverlayItem.text o)) 0 0
       ∈ overlayPaints overlayImgs selectedId base o.
Proof.
  intros Hk Ht. unfold overlayPaints, drawOverlay, drawShape, starting_from.
  cbv zeta. rewrite Hk, Ht.
  destruct (is_selected selectedId o); simpl;
    (eexists; split; [|split; [|split; [|split; [|left]]]]); reflexivity.
Qed.

(** What a visible image overlay paints: its bitmap at natural size, centred
    at the local origin, then the outline of the same rectangle when it is
    the selected one. *)
Lemma overlayPaints_image_exact overlayImgs selectedId base o img :
  OverlayItem.kind o = image →
  truthy (OverlayItem.src o) = true →
  overlayImgs !! OverlayItem.id o = Some img →
  overlayPaints overlayImgs selectedId base o =
    DrawImage (frameState base o) img
      (- naturalWidth img / 2) (- naturalHeight img / 2)
      (naturalWidth img) (naturalHeight img)
    :: (if is_selected selectedId o
        then [StrokeRect (outlineState (frameState base o))
                (- naturalWidth img / 2) (- naturalHeight img / 2)
                (naturalWidth img) (naturalHeight img)]
        else []).
Proof.
  intros Hk Hs Hc. unfold overlayPaints, drawOverlay, drawShape, starting_from.
  cbv zeta. rewrite Hk, Hs, Hc.
  by destruct (is_selected selectedId o).
Qed.

(** What a visible text overlay paints: its text at the local origin, then
    the outline of the nominal box when it is the selected one. *)
Lemma overlayPaints_text_exact overlayImgs selectedId base o :
  OverlayItem.kind o = text →
  truthy (OverlayItem.text o) = true →
  overlayPaints overlayImgs selectedId base o =
    FillText (textState (frameState base o))
      (default ""%string (OverlayItem.text o)) 0 0
    :: (if is_selected selectedId o
        then [StrokeRect (outlineState (textState (frameState base o)))
                (-150) (-35) 300 70]
        else []).
Proof.
  intros Hk Ht. unfold overlayPaints, drawOverlay, drawShape, starting_from.
  cbv zeta. rewrite Hk, Ht.
  by destruct (is_selected selectedId o).
Qed.
End RenderFacts.

(** C6.  Paint order and transform composition.  The frame drawn by [draw]
    is the background and base layer followed by the paints of the overlays
    concatenated in collection order (the record is in paint order, so a
    later index is painted over an earlier one): the paints of an overlay
    come after those of all overlays before it and before those of all
    overlays after it.  The same holds for the overlay loop from any
    context, which ends with the drawing state and the stack of saved states
    it started with, as does each single iteration: the frame is restored
    before the next overlay.  Every paint of an overlay is issued under the
    local frame translate, then rotate, then scale, and its shape is centred
    at the local origin; the local frame maps a point by scaling it,
    rotating it and translating it to the position of the overlay.  What an
    overlay paints is: for an image overlay with a source and a cached
    bitmap, the bitmap in the rectangle (-w/2, -h/2, w, h) of its natural
    size, under the local frame, then the outline of the same rectangle
    when it is the selected one; for a text overlay with a non-empty text,
    the text at the local origin, centred, then the outline of the nominal
    box when it is the selected one.  So every such overlay of the
    collection is painted in the frame of [draw], under its local frame over
    the density scaling. *)
Theorem overlays_painted_in_order_in_local_frames
    (st : CanvasStage.State) (clientWidth : option R) (devicePixelRatio : R)
    (overlayImgs : gmap string HTMLImageElement) (selectedId : option string)
    (ovs : list OverlayItem) (ctx : Canvas.Context2D) :
  (let size := CanvasStage.stageSize clientWidth in
   let layer :=
     CanvasStage.drawBase (CanvasStage.baseImg st) size.1 size.2
       (CanvasStage.drawBackground size.1 size.2
          (CanvasStage.dprOf devicePixelRatio) Canvas.fresh) in
   let frame :=
     Canvas.painted
       (CanvasStage.context
          (CanvasStage.draw st clientWidth devicePixelRatio)) in
   let paints :=
     overlayPaints (CanvasStage.overlayImgs st) (CanvasStage.selectedId st)
       (Canvas.cur layer) in
   let k := CanvasStage.dprOf devicePixelRatio in
   frame = Canvas.painted layer ++ concat (map paints (CanvasStage.overlays st)) ∧
   (∀ before o after,
      CanvasStage.overlays st = before ++ o :: after →
      frame = Canvas.painted layer ++ concat (map paints before) ++
              paints o ++ concat (map paints after)) ∧
   (∀ o, o ∈ CanvasStage.overlays st →
      (OverlayItem.kind o = image →
       truthy (OverlayItem.src o) = true →
       ∀ img, CanvasStage.overlayImgs st !! OverlayItem.id o = Some img →
         ∃ s, Canvas.transform s = localFrame (Canvas.scaling k k) o ∧
              Canvas.DrawImage s img
                (- naturalWidth img / 2) (- naturalHeight img / 2)
                (naturalWidth img) (naturalHeight img) ∈ frame) ∧
      (OverlayItem.kind o = text →
       truthy (OverlayItem.text o) = true →
       ∃ s, Canvas.transform s = localFrame (Canvas.scaling k k) o ∧
            Canvas.textAlign s = "center"%string ∧
            Canvas.textBaseline s = "middle"%string ∧
            Canvas.FillText s (default ""%string (OverlayItem.text o)) 0 0
            ∈ frame))) ∧
  (let ctx' := fold_left (CanvasStage.drawOverlay overlayImgs selectedId) ovs ctx in
   Canvas.painted ctx' =
     Canvas.painted ctx ++
     concat (map (overlayPaints overlayImgs selectedId (Canvas.cur ctx)) ovs) ∧
   Canvas.cur ctx' = Canvas.cur ctx ∧
   Canvas.stack ctx' = Canvas.stack ctx) ∧
  (∀ o,
     Canvas.cur (CanvasStage.drawOverlay overlayImgs selectedId ctx o)
       = Canvas.cur ctx ∧
     Canvas.stack (CanvasStage.drawOverlay overlayImgs selectedId ctx o)
       = Canvas.stack ctx ∧
     Canvas.painted (CanvasStage.drawOverlay overlayImgs selectedId ctx o)
       = Canvas.painted ctx ++
         overlayPaints overlayImgs selectedId (Canvas.cur ctx) o ∧
     Forall (λ p,
         Canvas.transform (Canvas.state_of p)
           = localFrame (Canvas.transform (Canvas.cur ctx)) o ∧
         Canvas.centre_of p = (0, 0) ∧
         match p with
         | Canvas.FillText s _ _ _ =>
             Canvas.textAlign s = "center"%string ∧
             Canvas.textBaseline s = "middle"%string
         | _ => True
         end)
       (overlayPaints overlayImgs selectedId (Canvas.cur ctx) o)) ∧
  (∀ base o,
     (OverlayItem.kind o = image →
      truthy (OverlayItem.src o) = true →
      ∀ img, overlayImgs !! OverlayItem.id o = Some img →
        overlayPaints overlayImgs selectedId base o =
          Canvas.DrawImage (frameState base o) img
            (- naturalWidth img / 2) (- naturalHeight img / 2)
            (naturalWidth img) (naturalHeight img)
          :: (if CanvasStage.is_selected selectedId o
              then [Canvas.StrokeRect (outlineState (frameState base o))
                      (- naturalWidth img / 2) (- naturalHeight img / 2)
                      (naturalWidth img) (naturalHeight img)]
              else [])) ∧
     (OverlayItem.kind o = text →
      truthy (OverlayItem.text o) = true →
      overlayPaints overlayImgs selectedId base o =
        Canvas.FillText (textState (frameState base o))
          (default ""%string (OverlayItem.text o)) 0 0
        :: (if CanvasStage.is_selected selectedId o
            then [Canvas.StrokeRect (outlineState (textState (frameState base o)))
                    (-150) (-35) 300 70]
            else [])) ∧
     Canvas.transform (frameState base o)
       = localFrame (Canvas.transform base) o) ∧
  (∀ base o u v,
     Canvas.apply (localFrame base o) (u, v) =
     Canvas.apply base
       (OverlayItem.x o
        + (cos (OverlayItem.rotation o) * (OverlayItem.scale o * u)
           - sin (OverlayItem.rotation o) * (OverlayItem.scale o * v)),
        OverlayItem.y o
        + (sin (OverlayItem.rotation o) * (OverlayItem.scale o * u)
           + cos (OverlayItem.rotation o) * (OverlayItem.scale o * v)))).
Proof.
  split; [|split; [|split; [|split]]].
  - cbv zeta.
    assert (Canvas.painted
              (CanvasStage.context
                 (CanvasStage.draw st clientWidth devicePixelRatio)) =
            Canvas.painted
              (CanvasStage.drawBase (CanvasStage.baseImg st)
                 (CanvasStage.stageSize clientWidth).1
                 (CanvasStage.stageSize clientWidth).2
                 (CanvasStage.drawBackground
                    (CanvasStage.stageSize clientWidth).1
                    (CanvasStage.stageSize clientWidth).2
                    (CanvasStage.dprOf devicePixelRatio) Canvas.fresh)) ++
            concat
              (map (overlayPaints (CanvasStage.overlayImgs st)
                      (CanvasStage.selectedId st)
                      (Canvas.cur
                         (CanvasStage.drawBase (CanvasStage.baseImg st)
                            (CanvasStage.stageSize clientWidth).1
                            (CanvasStage.stageSize clientWidth).2
                            (CanvasStage.drawBackground
                               (CanvasStage.stageSize clientWidth).1
                               (CanvasStage.stageSize clientWidth).2
                               (CanvasStage.dprOf devicePixelRatio)
                               Canvas.fresh))))
                 (CanvasStage.overlays st))) as Hframe.
    { unfold CanvasStage.draw, CanvasStage.stageSize. cbv zeta. simpl.
      apply drawOverlays_frame. }
    destruct (base_layer_paints (CanvasStage.baseImg st)
                (CanvasStage.stageSize clientWidth).1
                (CanvasStage.stageSize clientWidth).2
                (CanvasStage.dprOf devicePixelRatio)) as [Hcur _].
    set (layer := CanvasStage.drawBase _ _ _ _) in *.
    rewrite Hframe. split; [done|]. split.
    + intros before o after ->. by rewrite map_app, concat_app.
    + intros o Ho. split.
      * intros Hk Hs img Hc. eexists. split; [|apply elem_of_app; right].
        2:{ apply (elem_of_concat_map _ _ o); [done|].
            by apply overlayPaints_image. }
        simpl. by rewrite Hcur.
      * intros Hk Ht.
        destruct (overlayPaints_text (CanvasStage.overlayImgs st)
                    (CanvasStage.selectedId st) (Canvas.cur layer) o Hk Ht)
          as (s & Htr & Ha & Hb & _ & Hin).
        exists s. rewrite Htr, Hcur. repeat split; try done.
        apply elem_of_app. right. by apply (elem_of_concat_map _ _ o).
  - cbv zeta.
    destruct (drawOverlays_frame overlayImgs selectedId ovs ctx) as (? & ? & ?).
    done.
  - intros o.
    destruct (drawOverlay_frame overlayImgs selectedId ctx o) as (? & ? & ?).
    split; [done|]. split; [done|]. split; [done|]. apply overlayPaints_local.
  - intros base o. split; [|split; [|done]].
    + intros Hk Hs img Hc. by apply overlayPaints_image_exact.
    + intros Hk Ht. by apply overlayPaints_text_exact.
  - apply localFrame_apply.
Qed.

(** ** Cover-fit *)

Lemma coverFit_spec (w h iw ih : R) :
  0 < iw → 0 < ih →
  let scale := Rmax (w / iw) (h / ih) in
  let dw := iw * scale in
  let dh := ih * scale in
  w <= dw ∧ h <= dh ∧ (dw = w ∨ dh = h).
Proof.
  intros Hiw Hih. cbv zeta.
  assert (iw * (w / iw) = w) as Hw by (field; lra).
  assert (ih * (h / ih) = h) as Hh by (field; lra).
  unfold Rmax. destruct (Rle_dec (w / iw) (h / ih)) as [Hle|Hgt].
  - split; [|split; [lra|by right]]. rewrite <- Hw at 1. nra.
  - split; [lra|]. split; [|by left]. rewrite <- Hh at 1. nra.
Qed.

(** C7.  Cover-fit placement: for a base bitmap of positive natural
    dimensions (iw, ih) and a viewport (w, h), the base branch paints exactly
    the bitmap, in a rectangle (dx, dy, dw, dh) with dw = iw * scale and
    dh = ih * scale for scale = max(w / iw, h / ih), centred in the viewport;
    the rectangle covers the viewport on both axes and equals it on at least
    one. *)
Theorem cover_fit_placement
    (img : HTMLImageElement) (w h : R) (ctx : Canvas.Context2D) :
  0 < naturalWidth img →
  0 < naturalHeight img →
  let iw := naturalWidth img in
  let ih := naturalHeight img in
  let scale := Rmax (w / iw) (h / ih) in
  ∃ dx dy dw dh,
    CanvasStage.coverFit w h iw ih = (dx, dy, dw, dh) ∧
    Canvas.painted (CanvasStage.drawBase (Some img) w h ctx) =
      Canvas.painted ctx ++ [Canvas.DrawImage (Canvas.cur ctx) img dx dy dw dh] ∧
    dw = iw * scale ∧ dh = ih * scale ∧
    dx + dw / 2 = w / 2 ∧ dy + dh / 2 = h / 2 ∧
    dx <= 0 ∧ dy <= 0 ∧ w <= dx + dw ∧ h <= dy + dh ∧
    (dw = w ∨ dh = h).
Proof.
  intros Hiw Hih. cbv zeta.
  destruct (coverFit_spec w h _ _ Hiw Hih) as (Hw & Hh & Hexact).
  cbv zeta in Hw, Hh, Hexact.
  eexists _, _, _, _. split; [reflexivity|].
  split; [reflexivity|].
  split; [done|]. split; [done|].
  split; [lra|]. split; [lra|].
  split; [lra|]. split; [lra|]. split; [lra|]. split; [lra|done].
Qed.

Lemma cover_fit_placement_witness :
  ∃ dx dy dw dh,
    CanvasStage.coverFit 600 600 1200 800 = (dx, dy, dw, dh) ∧
    dw = 1200 * Rmax (600 / 1200) (600 / 800) ∧
    (dw = 600 ∨ dh = 600).
Proof.
  destruct (cover_fit_placement sample_photo 600 600 Canvas.fresh)
    as (dx & dy & dw & dh & Hfit & _ & Hdw & _ & _ & _ & _ & _ & _ & _ & Hex).
  - simpl. lra.
  - simpl. lra.
  - exists dx, dy, dw, dh. split; [exact Hfit|]. split; [exact Hdw|exact Hex].
Defined.

(** ** Empty text *)

Lemma drawOverlay_empty_text overlayImgs selectedId ctx o :
  OverlayItem.kind o = text →
  truthy (OverlayItem.text o) = false →
  CanvasStage.drawOverlay overlayImgs selectedId ctx o = ctx.
Proof.
  intros Hk Ht. unfold CanvasStage.drawOverlay, CanvasStage.drawShape.
  cbv zeta. rewrite Hk, Ht. by destruct ctx.
Qed.

(** C10.  A text overlay whose text is empty or absent is invisible: its
    iteration of the overlay loop returns the context it was given, so it
    paints neither the text nor an outline, whatever the selection, also
    when the selection is its own id; the frame drawn for a collection that
    holds it is the frame drawn without it.  It still takes part in the
    hit-test by its position: when it is the first nearest overlay of the
    collection and nearer than 120, the hit-test returns its id. *)
Theorem empty_text_overlay_invisible
    (overlayImgs : gmap string HTMLImageElement) (o : OverlayItem) :
  OverlayItem.kind o = text →
  truthy (OverlayItem.text o) = false →
  (∀ selectedId ctx,
     CanvasStage.drawOverlay overlayImgs selectedId ctx o = ctx) ∧
  (∀ ctx,
     Canvas.painted
       (CanvasStage.drawOverlay overlayImgs (Some (OverlayItem.id o)) ctx o)
     = Canvas.painted ctx) ∧
  (∀ selectedId before after ctx,
     fold_left (CanvasStage.drawOverlay overlayImgs selectedId)
       (before ++ o :: after) ctx
     = fold_left (CanvasStage.drawOverlay overlayImgs selectedId)
         (before ++ after) ctx) ∧
  (∀ ovs k x y,
     first_nearest x y ovs k o →
     CanvasStage.distTo x y o < 120 →
     CanvasStage.pickOverlay ovs x y = Some (OverlayItem.id o)).
Proof.
  intros Hk Ht.
  assert (∀ selectedId ctx,
            CanvasStage.drawOverlay overlayImgs selectedId ctx o = ctx) as Hnone.
  { intros. by apply drawOverlay_empty_text. }
  split; [done|]. split; [|split].
  - intros ctx. by rewrite Hnone.
  - intros selectedId before after ctx.
    rewrite !fold_left_app. simpl. by rewrite Hnone.
  - intros ovs k x y Hfn Hnear.
    rewrite (pickOverlay_first_nearest x y ovs k o Hfn).
    by apply Rltb_lt in Hnear as ->.
Qed.

Lemma empty_text_overlay_invisible_witness :
  Canvas.painted
    (CanvasStage.drawOverlay ∅ (Some "c"%string) Canvas.fresh blank_label) = [] ∧
  CanvasStage.pickOverlay [blank_label] 20 0 = Some "c"%string.
Proof.
  destruct (empty_text_overlay_invisible ∅ blank_label) as (_ & Hp & _ & Hhit);
    [reflexivity | reflexivity |].
  assert (CanvasStage.distTo 20 0 blank_label = 0) as Hd.
  { apply distTo_value; simpl; lra. }
  split; [exact (Hp Canvas.fresh)|].
  apply (Hhit [blank_label] 0%nat 20 0).
  - split; [reflexivity|]. split.
    + intros [|j] o'; simpl; [intros [= <-]; lra | done].
    + intros j o' Hlt. lia.
  - rewrite Hd. lra.
Defined.

(** ** The overlay image cache *)

Section Batch.
Import CanvasStage.
Local Close Scope R_scope.

Lemma merge_lookup_notin pairs prev (id : string) :
  id ∉ pairs.*1 → merge pairs prev !! id = prev !! id.
Proof.
  revert prev. induction pairs as [|[id' img'] pairs IH]; intros prev Hnot.
  - done.
  - apply not_elem_of_cons in Hnot as [Hne Hnot].
    unfold merge in *. simpl. rewrite IH by done.
    by rewrite lookup_insert_ne.
Qed.

Lemma merge_lookup_NoDup pairs prev k (id : string) img :
  NoDup pairs.*1 → pairs !! k = Some (id, img) →
  merge pairs prev !! id = Some img.
Proof.
  revert prev k. induction pairs as [|[id' img'] pairs IH]; intros prev k Hnd Hk.
  - done.
  - apply NoDup_cons in Hnd as [Hnot Hnd]. destruct k as [|k].
    + simpl in Hk. injection Hk as -> ->. unfold merge. simpl.
      change (merge pairs (<[id:=img]> prev) !! id = Some img).
      rewrite merge_lookup_notin by done. apply lookup_insert_eq.
    + unfold merge. simpl. by apply (IH _ k).
Qed.

(** [Promise.all] is not fulfilled while one of its promises is not. *)
Lemma loadedPairs_unsettled needed ds k d :
  ds !! k = Some d → (∀ img, d ≠ Fulfilled img) →
  loadedPairs needed ds = None.
Proof.
  revert ds k. induction needed as [|[id src] needed IH]; intros ds k Hk Hd.
  - by destruct ds.
  - destruct ds as [|d0 ds]; [done|]. destruct k as [|k]; simpl in *.
    + injection Hk as ->. destruct d; try done. by destruct (Hd img).
    + destruct d0; try done. by rewrite (IH ds k).
Qed.

Lemma loadedPairs_fulfilled needed imgs :
  length imgs = length needed →
  loadedPairs needed (map Fulfilled imgs) = Some (zip needed.*1 imgs).
Proof.
  revert imgs. induction needed as [|[id src] needed IH]; intros imgs Hlen.
  - by destruct imgs.
  - destruct imgs as [|img imgs]; [done|]. simpl in *.
    rewrite IH by lia. done.
Qed.

Lemma batchState_lookup outcomes ks k :
  batchState outcomes ks !! k =
    (λ r, if decide (k ∈ ks) then settled_as r else Pending) <$> outcomes !! k.
Proof. unfold batchState. by rewrite list_lookup_imap. Qed.

Lemma batchState_lookup_pending outcomes ks k :
  k < length outcomes → k ∉ ks → batchState outcomes ks !! k = Some Pending.
Proof.
  intros Hk Hnot. rewrite batchState_lookup.
  destruct (lookup_lt_is_Some_2 outcomes k Hk) as [r ->].
  cbn [fmap option_fmap option_map]. by rewrite decide_False.
Qed.

Lemma batchState_nil outcomes :
  batchState outcomes [] = replicate (length outcomes) Pending.
Proof.
  apply list_eq. intros i. destruct (decide (i < length outcomes)) as [Hi|Hi].
  - rewrite batchState_lookup_pending by (done || apply not_elem_of_nil).
    symmetry. by apply lookup_replicate_2.
  - rewrite batchState_lookup.
    rewrite (proj2 (lookup_ge_None outcomes i)) by lia.
    symmetry. apply lookup_replicate_None. lia.
Qed.

Lemma batchState_length outcomes ks :
  length (batchState outcomes ks) = length outcomes.
Proof. unfold batchState. apply length_imap. Qed.

Lemma batchState_snoc outcomes ks k :
  <[k := settled_as (default None (outcomes !! k))]> (batchState outcomes ks)
  = batchState outcomes (ks ++ [k]).
Proof.
  apply list_eq. intros i.
  destruct (decide (k = i)) as [<-|Hne].
  - destruct (outcomes !! k) as [r|] eqn:E.
    + rewrite list_lookup_insert_eq
        by (rewrite batchState_length; by eapply lookup_lt_Some).
      rewrite batchState_lookup, E.
      cbn [fmap option_fmap option_map default].
      rewrite decide_True; [done|]. apply elem_of_app. right. left.
    + rewrite list_insert_ge
        by (rewrite batchState_length; by apply lookup_ge_None).
      by rewrite !batchState_lookup, E.
  - rewrite list_lookup_insert_ne by done. rewrite !batchState_lookup.
    destruct (outcomes !! i) as [r|]; [|done].
    cbn [fmap option_fmap option_map]. f_equal.
    destruct (decide (i ∈ ks)) as [Hin|Hin].
    + rewrite decide_True; [done|]. apply elem_of_app. by left.
    + rewrite decide_False; [done|].
      intros [?|Hk]%elem_of_app; [done|].
      apply list_elem_of_singleton in Hk. congruence.
Qed.

Lemma batchState_all outcomes ks :
  (∀ k, k < length outcomes → k ∈ ks) →
  batchState outcomes ks = map settled_as outcomes.
Proof.
  intros Hall. apply list_eq. intros i.
  rewrite batchState_lookup, list_lookup_fmap.
  destruct (outcomes !! i) as [r|] eqn:E; [|done].
  cbn [fmap option_fmap option_map].
  rewrite decide_True; [done|]. apply Hall. by eapply lookup_lt_Some.
Qed.

(** What the cache holds for a batch in the state [ds], over the cache
    [prev] the batch started from. *)
Lemma overlayDecoded_batch st e b needed outcomes ks k prev :
  overlayEffects st !! e =
    Some (OverlayEffect.mk b needed (batchState outcomes ks)) →
  overlayImgs st = prev →
  length outcomes = length needed →
  k < length needed → k ∉ ks →
  let st' := overlayDecoded e k (default None (outcomes !! k)) st in
  overlayEffects st' !! e =
    Some (OverlayEffect.mk b needed (batchState outcomes (ks ++ [k]))) ∧
  overlayImgs st' =
    match loadedPairs needed (batchState outcomes (ks ++ [k])) with
    | Some pairs => if b then prev else merge pairs prev
    | None => prev
    end.
Proof.
  intros He Hprev Hlen Hk Hnot. cbv zeta. unfold overlayDecoded.
  rewrite He. cbn [OverlayEffect.decodes OverlayEffect.needed
                   OverlayEffect.cancelled].
  rewrite batchState_lookup_pending by (done || lia).
  rewrite batchState_snoc.
  assert (e < length (overlayEffects st)) by (by eapply lookup_lt_Some).
  destruct (loadedPairs needed (batchState outcomes (ks ++ [k]))) as [pairs|].
  - destruct b; simpl; (split; [by apply list_lookup_insert_eq | by f_equal]).
  - simpl. split; [by apply list_lookup_insert_eq | done].
Qed.

(** The invariant of a batch over a run of its decode events: the closure
    holds the promises settled so far, and the cache is the one the batch
    started from until [Promise.all] is fulfilled. *)
Lemma run_batch ks : ∀ st e b needed outcomes settled prev,
  overlayEffects st !! e =
    Some (OverlayEffect.mk b needed (batchState outcomes settled)) →
  overlayImgs st =
    match loadedPairs needed (batchState outcomes settled) with
    | Some pairs => if b then prev else merge pairs prev
    | None => prev
    end →
  length outcomes = length needed →
  NoDup (settled ++ ks) →
  Forall (λ k, k < length needed) ks →
  let st' := run st (decodeEvents e outcomes ks) in
  overlayEffects st' !! e =
    Some (OverlayEffect.mk b needed (batchState outcomes (settled ++ ks))) ∧
  overlayImgs st' =
    match loadedPairs needed (batchState outcomes (settled ++ ks)) with
    | Some pairs => if b then prev else merge pairs prev
    | None => prev
    end.
Proof.
  induction ks as [|k ks IH];
    intros st e b needed outcomes settled prev He Hinv Hlen Hnd Hall.
  { cbv zeta. simpl. by rewrite app_nil_r. }
  apply Forall_cons in Hall as [Hk Hall].
  assert (k ∉ settled) as Hnot.
  { apply NoDup_app in Hnd as (_ & Hdisj & _). intros Hin.
    apply (Hdisj k Hin). left. }
  assert (loadedPairs needed (batchState outcomes settled) = None) as Hpend.
  { apply (loadedPairs_unsettled _ _ k Pending); [|done].
    apply batchState_lookup_pending; [lia|done]. }
  rewrite Hpend in Hinv.
  destruct (overlayDecoded_batch st e b needed outcomes settled k prev)
    as [He1 Hc1]; try done.
  cbv zeta. simpl.
  replace (settled ++ k :: ks) with ((settled ++ [k]) ++ ks)
    by (by rewrite <- app_assoc).
  apply IH; try done. by rewrite <- app_assoc.
Qed.
End Batch.

Section BatchOfAChange.
Import CanvasStage.
Local Close Scope R_scope.

(** A change of the collection starts a new closure, not cancelled, with
    every decode of its [needed] list pending, and leaves the cache. *)
Lemma setOverlays_batch f st0 :
  let needed := neededOf (overlayImgs st0) (f (overlays st0)) in
  overlayEffects (setOverlays f st0) !! length (overlayEffects st0) =
    Some (OverlayEffect.mk false needed (replicate (length needed) Pending)) ∧
  overlayImgs (setOverlays f st0) = overlayImgs st0.
Proof.
  cbv zeta. unfold setOverlays, overlayImagesEffect. cbv zeta. simpl.
  destruct (neededOf (overlayImgs st0) (f (overlays st0))) as [|p needed];
    simpl; (split; [|done]);
    rewrite lookup_app_r by (by rewrite length_alter);
    by rewrite length_alter, Nat.sub_diag.
Qed.

Lemma loadedPairs_all_pending needed pairs :
  loadedPairs needed (replicate (length needed) Pending) = Some pairs →
  pairs = [].
Proof. destruct needed as [|[??] ?]; simpl; [by intros [= <-] | done]. Qed.

Lemma run_fresh_batch f st0 outcomes ks :
  let needed := neededOf (overlayImgs st0) (f (overlays st0)) in
  length outcomes = length needed →
  NoDup ks →
  Forall (λ k, k < length needed) ks →
  overlayImgs
    (run (setOverlays f st0)
       (decodeEvents (length (overlayEffects st0)) outcomes ks)) =
    match loadedPairs needed (batchState outcomes ks) with
    | Some pairs => merge pairs (overlayImgs st0)
    | None => overlayImgs st0
    end.
Proof.
  intros needed Hlen Hnd Hall.
  destruct (setOverlays_batch f st0) as [He Hc]. fold needed in He.
  rewrite <- Hlen, <- batchState_nil in He.
  destruct (run_batch ks (setOverlays f st0) (length (overlayEffects st0))
              false needed outcomes [] (overlayImgs st0)) as [_ Hrun];
    try done.
  rewrite Hc, batchState_nil, Hlen.
  destruct (loadedPairs needed _) as [pairs|] eqn:E; [|done].
  by apply loadedPairs_all_pending in E as ->.
Qed.
End BatchOfAChange.

(** C2 (as amended).  Overlay decodes are all or nothing per batch.  A change
    of the collection starts one batch for the missing image overlays
    ([needed]).  Whatever the order in which decodes of the batch complete
    ([ks], without repetition), with no other event in between: while some
    decode of the batch has not completed the cache is the one the batch
    started from; when some decode of the batch fails, or is going to fail,
    the cache is the one the batch started from, also after every decode has
    completed, so the overlays of the batch that decoded successfully are
    not cached either; when every decode has completed successfully the
    cache is the old one with all pairs of the batch merged in one update,
    and with distinct ids each id of the batch maps to its own bitmap. *)
Theorem overlay_batch_all_or_nothing
    (st0 : CanvasStage.State) (f : list OverlayItem → list OverlayItem)
    (outcomes : list (option HTMLImageElement)) (ks : list nat) :
  let needed :=
    CanvasStage.neededOf (CanvasStage.overlayImgs st0)
      (f (CanvasStage.overlays st0)) in
  let st' :=
    run (CanvasStage.setOverlays f st0)
      (decodeEvents (length (CanvasStage.overlayEffects st0)) outcomes ks) in
  length outcomes = length needed →
  NoDup ks →
  Forall (λ k, (k < length needed)%nat) ks →
  (∀ k, (k < length needed)%nat → k ∉ ks →
        CanvasStage.overlayImgs st' = CanvasStage.overlayImgs st0) ∧
  (∀ k, outcomes !! k = Some None →
        CanvasStage.overlayImgs st' = CanvasStage.overlayImgs st0) ∧
  (∀ imgs,
     outcomes = map Some imgs →
     (∀ k, (k < length needed)%nat → k ∈ ks) →
     CanvasStage.overlayImgs st' =
       CanvasStage.merge (zip needed.*1 imgs) (CanvasStage.overlayImgs st0) ∧
     (NoDup needed.*1 →
      ∀ k id src img,
        needed !! k = Some (id, src) → imgs !! k = Some img →
        CanvasStage.overlayImgs st' !! id = Some img)).
Proof.
  intros needed st' Hlen Hnd Hall.
  assert (CanvasStage.overlayImgs st' =
          match CanvasStage.loadedPairs needed (batchState outcomes ks) with
          | Some pairs => CanvasStage.merge pairs (CanvasStage.overlayImgs st0)
          | None => CanvasStage.overlayImgs st0
          end) as Hrun by (by apply run_fresh_batch).
  split; [|split].
  - intros k Hk Hnot. rewrite Hrun.
    rewrite (loadedPairs_unsettled needed _ k Pending); [done| |done].
    apply batchState_lookup_pending; [lia|done].
  - intros k Hfail. rewrite Hrun.
    rewrite (loadedPairs_unsettled needed _ k
               (if decide (k ∈ ks) then Rejected else Pending)); [done| |].
    + by rewrite batchState_lookup, Hfail.
    + intros img. by case_decide.
  - intros imgs -> Hcover.
    assert (length imgs = length needed) as Hlen'
      by (by rewrite length_map in Hlen).
    assert (CanvasStage.overlayImgs st' =
            CanvasStage.merge (zip needed.*1 imgs) (CanvasStage.overlayImgs st0))
      as Hmerged.
    { rewrite Hrun, batchState_all.
      - rewrite <- list_fmap_compose.
        change (settled_as ∘ Some) with Fulfilled.
        by rewrite loadedPairs_fulfilled.
      - intros k Hk. apply Hcover. by rewrite length_map in Hk; lia. }
    split; [done|]. intros Hids k id src img Hk Himg. rewrite Hmerged.
    apply (merge_lookup_NoDup _ _ k).
    + rewrite fst_zip; [done|]. rewrite length_fmap. lia.
    + rewrite lookup_zip_with, list_lookup_fmap, Hk. simpl. by rewrite Himg.
Qed.

Lemma overlay_batch_all_or_nothing_witness :
  CanvasStage.overlayImgs
    (run (CanvasStage.setOverlays (λ _, two_stickers) App.mount)
       (decodeEvents 1 [Some hat_bitmap; Some glasses_bitmap] [1; 0]%nat))
    !! "b"%string = Some glasses_bitmap.
Proof.
  destruct (overlay_batch_all_or_nothing App.mount (λ _, two_stickers)
              [Some hat_bitmap; Some glasses_bitmap] [1; 0]%nat)
    as (_ & _ & Hall).
  - reflexivity.
  - compute_done.
  - compute_done.
  - destruct (Hall [hat_bitmap; glasses_bitmap]) as [_ Hkeyed].
    + reflexivity.
    + intros [|[|k]] Hk.
      * apply elem_of_cons. right. apply elem_of_cons. by left.
      * apply elem_of_cons. by left.
      * vm_compute in Hk. lia.
    + apply (Hkeyed ltac:(compute_done)
               1%nat "b"%string "/overlays/glasses.png"%string glasses_bitmap);
        reflexivity.
Defined.

(** C2, counterexample.  Two stickers are added before any decode completes,
    so the second change starts one batch for both.  The decode of "a"
    succeeds and is not merged when it completes; the decode of "b" then
    fails, and "a" stays without a bitmap although its decode succeeded. *)
Lemma overlay_failure_drops_sibling :
  CanvasStage.overlayEffects (run App.mount add_two_stickers) !! 2%nat
  = Some (OverlayEffect.mk false
            [("a", "/overlays/hat.png"); ("b", "/overlays/glasses.png")]%string
            [Pending; Pending]) ∧
  CanvasStage.overlayEffects
    (run App.mount
       (add_two_stickers ++
        [OverlayDecoded 2 0 (Some hat_bitmap); OverlayDecoded 2 1 None]))
    !! 2%nat
  = Some (OverlayEffect.mk false
            [("a", "/overlays/hat.png"); ("b", "/overlays/glasses.png")]%string
            [Fulfilled hat_bitmap; Rejected]) ∧
  CanvasStage.overlayImgs
    (run App.mount (add_two_stickers ++ [OverlayDecoded 2 0 (Some hat_bitmap)]))
    !! "a"%string = None ∧
  CanvasStage.overlayImgs
    (run App.mount
       (add_two_stickers ++
        [OverlayDecoded 2 0 (Some hat_bitmap); OverlayDecoded 2 1 None]))
    !! "a"%string = None.
Proof. vm_compute. done. Qed.

(** ** The base image slot *)

Section BaseImage.
Import CanvasStage.
Local Close Scope R_scope.

(** On the success path a superseded decode is discarded: the continuation
    checks [cancelled]. *)
Lemma stale_base_success_discarded st eff c img :
  baseEffects st !! eff = Some c →
  BaseEffect.cancelled c = true →
  baseImg (step st (BaseDecoded eff (Some img))) = baseImg st.
Proof.
  intros He Hc. simpl. unfold baseDecoded. rewrite He.
  destruct (BaseEffect.awaiting c); [|done]. by rewrite Hc.
Qed.

(** On the failure path it is not: the [.catch] handler clears the slot
    whether or not the closure was cancelled. *)
Lemma base_failure_clears_slot st eff c :
  baseEffects st !! eff = Some c →
  BaseEffect.awaiting c = true →
  baseImg (step st (BaseDecoded eff None)) = None.
Proof.
  intros He Hc. simpl. unfold baseDecoded. by rewrite He, Hc.
Qed.

Lemma baseImageEffect_cancels st :
  superseded_cancelled (baseEffects st) →
  superseded_cancelled (baseEffects (baseImageEffect st)).
Proof.
  intros Hinv.
  assert (∀ c', superseded_cancelled
            (alter BaseEffect.cancel (pred (length (baseEffects st)))
               (baseEffects st) ++ [c'])) as Hnew.
  { intros c' i c Hi Hlt. rewrite length_app, length_alter in Hlt.
    simpl in Hlt. rewrite lookup_app_l in Hi by (rewrite length_alter; lia).
    destruct (decide (i = pred (length (baseEffects st)))) as [->|Hne].
    - rewrite list_lookup_alter_eq in Hi.
      destruct (baseEffects st !! _); [|done]. by injection Hi as <-.
    - rewrite list_lookup_alter_ne in Hi by done.
      apply (Hinv i c Hi). lia. }
  unfold baseImageEffect. cbv zeta. destruct (truthy _); apply Hnew.
Qed.

Lemma baseDecoded_cancels eff r st :
  superseded_cancelled (baseEffects st) →
  superseded_cancelled (baseEffects (baseDecoded eff r st)).
Proof.
  intros Hinv. unfold baseDecoded.
  destruct (baseEffects st !! eff) as [c|] eqn:He; [|done].
  destruct (BaseEffect.awaiting c); [|done].
  assert (superseded_cancelled
            (<[eff := BaseEffect.settle c]> (baseEffects st))) as Hnew.
  { intros i c' Hi Hlt. rewrite length_insert in Hlt.
    destruct (decide (eff = i)) as [<-|Hne].
    - rewrite list_lookup_insert_eq in Hi by (by eapply lookup_lt_Some).
      injection Hi as <-. simpl. by apply (Hinv eff c).
    - rewrite list_lookup_insert_ne in Hi by done. by apply (Hinv i). }
  destruct r; [|done]. by destruct (BaseEffect.cancelled c).
Qed.

Lemma step_cancels st ev :
  superseded_cancelled (baseEffects st) →
  superseded_cancelled (baseEffects (step st ev)).
Proof.
  intros Hinv. destruct ev; simpl.
  - unfold App.onUpload. case_decide; [done|].
    by apply baseImageEffect_cancels.
  - unfold App.addOverlay, setOverlays.
    by rewrite (proj1 (proj2 (proj2 (proj2 (proj2 (proj2
                 (overlayImagesEffect_frame _))))))).
  - unfold App.addText, setOverlays.
    by rewrite (proj1 (proj2 (proj2 (proj2 (proj2 (proj2
                 (overlayImagesEffect_frame _))))))).
  - unfold App.removeLast, setOverlays.
    by rewrite (proj1 (proj2 (proj2 (proj2 (proj2 (proj2
                 (overlayImagesEffect_frame _))))))).
  - done.
  - unfold onPointerDown. cbv zeta. destruct (truthy _); [|done].
    by destruct (List.find _ _).
  - unfold onPointerMove. destruct (drag st); [|done]. unfold setOverlays.
    by rewrite (proj1 (proj2 (proj2 (proj2 (proj2 (proj2
                 (overlayImagesEffect_frame _))))))).
  - done.
  - unfold onWheel. destruct (truthy _); [|done]. unfold setOverlays.
    by rewrite (proj1 (proj2 (proj2 (proj2 (proj2 (proj2
                 (overlayImagesEffect_frame _))))))).
  - by apply baseDecoded_cancels.
  - by rewrite (proj2 (proj2 (proj2 (proj2 (overlayDecoded_frame _ _ _ _))))).
Qed.

Lemma reachable_cancels evs :
  superseded_cancelled (baseEffects (run App.mount evs)).
Proof.
  induction evs as [|ev evs IH] using rev_ind.
  - intros i c _ Hone. change (S i < 1) in Hone. lia.
  - unfold run. rewrite fold_left_app. simpl. by apply step_cancels.
Qed.

(** From the first render on, a decode of the base image that was
    superseded and then succeeds never changes the slot. *)
Lemma reachable_stale_success_discarded evs eff img :
  let st := run App.mount evs in
  S eff < length (baseEffects st) →
  baseImg (step st (BaseDecoded eff (Some img))) = baseImg st.
Proof.
  intros st Hlt.
  destruct (lookup_lt_is_Some_2 (baseEffects st) eff) as [c Hc]; [lia|].
  apply (stale_base_success_discarded st eff c img Hc).
  by apply (reachable_cancels evs eff c).
Qed.
End BaseImage.

(** C1, at the failing input.  The base image is changed to A (effect run 1)
    and then to B (run 2) before the decode of A completes.  The decode of B
    succeeds and the slot holds the bitmap of B; the closure of A is
    cancelled and still awaits its decode.  When the decode of A then fails,
    the slot is emptied: it reflects the outcome of A, not the result of
    B. *)
Theorem stale_base_failure_empties_slot :
  let st := run App.mount A_then_B_loaded in
  CanvasStage.baseImageUrl st = Some "blob:B"%string ∧
  CanvasStage.baseEffects st !! 1%nat = Some (BaseEffect.mk true true) ∧
  CanvasStage.baseEffects st !! 2%nat = Some (BaseEffect.mk false false) ∧
  CanvasStage.baseImg st = Some photo_B ∧
  CanvasStage.baseImg (step st (BaseDecoded 1 None)) = None.
Proof. vm_compute. done. Qed.


(* ===================================================================== *)
(** * Further properties of the code *)
(* ===================================================================== *)

(** ** tools.ts and the stage size *)

(** X1.  [clamp] with ordered bounds: the result lies between the bounds, a
    value inside the bounds is returned as it is, a value outside is
    replaced by the nearer bound, clamping twice is clamping once, and
    [clamp] is monotone in the value. *)
Theorem clamp_ordered_bounds (n m lo hi : R) :
  lo <= hi →
  lo <= Tools.clamp n lo hi <= hi ∧
  (lo <= n <= hi → Tools.clamp n lo hi = n) ∧
  (n <= lo → Tools.clamp n lo hi = lo) ∧
  (hi <= n → Tools.clamp n lo hi = hi) ∧
  Tools.clamp (Tools.clamp n lo hi) lo hi = Tools.clamp n lo hi ∧
  (n <= m → Tools.clamp n lo hi <= Tools.clamp m lo hi).
Proof.
  intros Hb. unfold Tools.clamp, Rmax, Rmin.
  repeat split; intros; repeat destruct (Rle_dec _ _); lra.
Qed.

Lemma clamp_ordered_bounds_witness :
  Tools.clamp 5 0 3 = 3 ∧ Tools.clamp (-1) 0 3 = 0 ∧ Tools.clamp 2 0 3 = 2.
Proof.
  destruct (clamp_ordered_bounds 5 5 0 3) as (_ & _ & _ & Hhi & _); [lra|].
  destruct (clamp_ordered_bounds (-1) 5 0 3) as (_ & _ & Hlo & _); [lra|].
  destruct (clamp_ordered_bounds 2 5 0 3) as (_ & Hin & _); [lra|].
  split; [apply Hhi; lra|]. split; [apply Hlo; lra | apply Hin; lra].
Defined.

(** X2.  [clamp] with the bounds the wrong way round ([max < min]) returns
    [min] for every value: the outer [Math.max] wins. *)
Theorem clamp_inverted_bounds (n lo hi : R) :
  hi < lo → Tools.clamp n lo hi = lo.
Proof.
  intros Hb. unfold Tools.clamp, Rmax, Rmin.
  repeat destruct (Rle_dec _ _); lra.
Qed.

Lemma clamp_inverted_bounds_witness :
  Tools.clamp 2 3 0 = 3 ∧ Tools.clamp 100 3 0 = 3.
Proof.
  split; apply clamp_inverted_bounds; lra.
Defined.

(** X3.  The stage is a square whose side lies in [320, 900]: the side is
    the width of the container when that lies in the range, 320 for a
    narrower container, 900 for a wider one, and 600 when there is no
    container yet. *)
Theorem stageSize_square_in_range (clientWidth : option R) :
  (CanvasStage.stageSize clientWidth).1 = (CanvasStage.stageSize clientWidth).2 ∧
  320 <= (CanvasStage.stageSize clientWidth).1 <= 900 ∧
  (clientWidth = None → CanvasStage.stageSize clientWidth = (600, 600)) ∧
  (∀ c, clientWidth = Some c →
        (320 <= c <= 900 → CanvasStage.stageSize clientWidth = (c, c)) ∧
        (c <= 320 → CanvasStage.stageSize clientWidth = (320, 320)) ∧
        (900 <= c → CanvasStage.stageSize clientWidth = (900, 900))).
Proof.
  unfold CanvasStage.stageSize. cbv zeta. simpl.
  unfold Tools.clamp, Rmax, Rmin.
  split; [done|]. split; [|split].
  - repeat destruct (Rle_dec _ _); lra.
  - intros ->. simpl. f_equal; repeat destruct (Rle_dec _ _); lra.
  - intros c ->. simpl.
    repeat split; intros; f_equal; repeat destruct (Rle_dec _ _); lra.
Qed.

(** ** The overlay image cache, continued *)

Section Cache.
Import CanvasStage.
Local Close Scope R_scope.

(** X4.  What the overlay effect requests: a pair (id, src) is needed exactly
    when some overlay of the collection is of kind image, has that id and
    that non-empty source, and the cache has no bitmap under the id.  Text
    overlays, images without a source and cached ids are never requested. *)
Theorem neededOf_characterised
    (imgs : gmap string HTMLImageElement) (ovs : list OverlayItem)
    (id src : string) :
  (id, src) ∈ neededOf imgs ovs ↔
  ∃ o, o ∈ ovs ∧ OverlayItem.kind o = image ∧ OverlayItem.src o = Some src ∧
       src ≠ ""%string ∧ OverlayItem.id o = id ∧ imgs !! id = None.
Proof.
  unfold neededOf, entries. rewrite list_elem_of_In, filter_In, in_map_iff.
  simpl. split.
  - intros [(o & [= Hid Hsrc] & [Hin Hk]%filter_In) Hc].
    exists o. rewrite list_elem_of_In. split; [done|].
    destruct (OverlayItem.kind o); [|done].
    apply truthy_Some in Hk as (s & Hs & Hne). rewrite Hs in Hsrc.
    simpl in Hsrc. subst s. repeat split; try done.
    by destruct (imgs !! id).
  - intros (o & Hin & Hk & Hs & Hne & Hid & Hc). split.
    + exists o. rewrite Hs, Hid. split; [done|].
      apply filter_In. split; [by apply list_elem_of_In|].
      rewrite Hk. apply truthy_Some. eauto.
    + by rewrite Hc.
Qed.

Lemma merge_snoc pairs (id : string) img prev :
  merge (pairs ++ [(id, img)]) prev = <[id := img]> (merge pairs prev).
Proof. unfold merge. by rewrite fold_left_app. Qed.

Lemma merge_lookup_in pairs prev (id : string) :
  id ∈ pairs.*1 →
  ∃ img, (id, img) ∈ pairs ∧ merge pairs prev !! id = Some img.
Proof.
  induction pairs as [|[id' img'] pairs IH] using rev_ind.
  - by intros ?%elem_of_nil.
  - rewrite fmap_app, merge_snoc. simpl. intros Hin.
    destruct (decide (id' = id)) as [->|Hne].
    + exists img'. split; [apply elem_of_app; right; left|].
      apply lookup_insert_eq.
    + apply elem_of_app in Hin as [Hin|Hin].
      * destruct (IH Hin) as (img & Hp & Hl). exists img.
        split; [apply elem_of_app; by left|]. by rewrite lookup_insert_ne.
      * apply list_elem_of_singleton in Hin. congruence.
Qed.

Lemma merge_is_Some pairs prev (id : string) :
  id ∈ pairs.*1 ∨ is_Some (prev !! id) → is_Some (merge pairs prev !! id).
Proof.
  destruct (decide (id ∈ pairs.*1)) as [Hin|Hnot].
  - intros _. destruct (merge_lookup_in pairs prev id Hin) as (img & _ & ->).
    by eexists.
  - intros [?|Hs]; [done|]. by rewrite merge_lookup_notin.
Qed.

(** X8.  The merge of a batch into the cache: an id outside the batch keeps
    what it had, every id of the batch ends with a bitmap of one of its
    pairs, and when an id occurs more than once the last pair wins. *)
Theorem merge_adds_and_keeps
    (pairs : list (string * HTMLImageElement))
    (prev : gmap string HTMLImageElement) (id : string) :
  (id ∉ pairs.*1 → merge pairs prev !! id = prev !! id) ∧
  (id ∈ pairs.*1 →
   ∃ img, (id, img) ∈ pairs ∧ merge pairs prev !! id = Some img) ∧
  (∀ img, merge (pairs ++ [(id, img)]) prev !! id = Some img).
Proof.
  split; [apply merge_lookup_notin|]. split; [apply merge_lookup_in|].
  intros img. rewrite merge_snoc. apply lookup_insert_eq.
Qed.
End Cache.

Section CacheInvariant.
Import CanvasStage.
Local Close Scope R_scope.

Lemma loadedPairs_fst needed ds pairs :
  loadedPairs needed ds = Some pairs → pairs.*1 = needed.*1.
Proof.
  revert ds pairs. induction needed as [|[id src] needed IH]; intros ds pairs.
  - destruct ds; [by intros [= <-] | done].
  - destruct ds as [|[|img|] ds]; simpl; try done.
    destruct (loadedPairs needed ds) as [ps|] eqn:E; [|done].
    intros [= <-]. simpl. f_equal. by apply (IH ds).
Qed.

Lemma overlayImagesEffect_effects st :
  overlayEffects (overlayImagesEffect st) =
    alter OverlayEffect.cancel (pred (length (overlayEffects st)))
      (overlayEffects st) ++
    [OverlayEffect.mk false (neededOf (overlayImgs st) (overlays st))
       (replicate (length (neededOf (overlayImgs st) (overlays st))) Pending)].
Proof.
  unfold overlayImagesEffect. cbv zeta.
  by destruct (neededOf (overlayImgs st) (overlays st)).
Qed.

Lemma cache_inv_ext st st' :
  overlayEffects st' = overlayEffects st →
  overlayImgs st' = overlayImgs st →
  cache_inv st → cache_inv st'.
Proof.
  intros He Hc [Hsup Hopen]. unfold cache_inv, open_batch_uncached.
  rewrite He, Hc. by split.
Qed.

Lemma overlayImagesEffect_inv st :
  superseded_batches_cancelled (overlayEffects st) →
  cache_inv (overlayImagesEffect st).
Proof.
  intros Hsup. unfold cache_inv, open_batch_uncached.
  rewrite overlayImagesEffect_effects.
  rewrite (proj1 (proj2 (proj2 (proj2 (proj2 (overlayImagesEffect_frame st)))))).
  split.
  - intros i c Hi Hlt. rewrite length_app, length_alter in Hlt. simpl in Hlt.
    rewrite lookup_app_l in Hi by (rewrite length_alter; lia).
    destruct (decide (i = pred (length (overlayEffects st)))) as [->|Hne].
    + rewrite list_lookup_alter_eq in Hi.
      destruct (overlayEffects st !! _); [|done]. by injection Hi as <-.
    + rewrite list_lookup_alter_ne in Hi by done.
      apply (Hsup i c Hi). lia.
  - intros c Hlast _ p Hp.
    rewrite length_app, length_alter in Hlast. simpl in Hlast.
    replace (pred (length (overlayEffects st) + 1))
      with (length (overlayEffects st)) in Hlast by lia.
    rewrite lookup_app_r in Hlast by (by rewrite length_alter).
    rewrite length_alter, Nat.sub_diag in Hlast. injection Hlast as <-.
    simpl in Hp. unfold neededOf in Hp.
    apply list_elem_of_In, filter_In in Hp as [_ Hp].
    by destruct (overlayImgs st !! p.1).
Qed.

Lemma setOverlays_inv f st : cache_inv st → cache_inv (setOverlays f st).
Proof. intros [Hsup _]. unfold setOverlays. by apply overlayImagesEffect_inv. Qed.

Lemma overlayDecoded_inv eff k r st :
  cache_inv st → cache_inv (overlayDecoded eff k r st).
Proof.
  intros [Hsup Hopen]. unfold overlayDecoded.
  destruct (overlayEffects st !! eff) as [c|] eqn:He; [|done].
  destruct (OverlayEffect.decodes c !! k) as [[| |]|] eqn:Hk; try done.
  assert (eff < length (overlayEffects st)) as Hlt by (by eapply lookup_lt_Some).
  assert (loadedPairs (OverlayEffect.needed c) (OverlayEffect.decodes c) = None)
    as Hpre by (by apply (loadedPairs_unsettled _ _ k Pending)).
  set (ds := <[k := settled_as r]> (OverlayEffect.decodes c)).
  set (effs := <[eff := OverlayEffect.with_decodes c ds]> (overlayEffects st)).
  assert (superseded_batches_cancelled effs) as Hsup'.
  { intros i c' Hi Hi'. unfold effs in Hi, Hi'. rewrite length_insert in Hi'.
    destruct (decide (eff = i)) as [<-|Hne].
    - rewrite list_lookup_insert_eq in Hi by done. injection Hi as <-.
      simpl. by apply (Hsup eff c).
    - rewrite list_lookup_insert_ne in Hi by done. by apply (Hsup i). }
  assert (∀ cache c',
            effs !! pred (length effs) = Some c' →
            loadedPairs (OverlayEffect.needed c') (OverlayEffect.decodes c')
              = None →
            cache = overlayImgs st →
            ∀ p, p ∈ OverlayEffect.needed c' → cache !! p.1 = None) as Hkeep.
  { intros cache c' Hlast Hnone -> p Hp. unfold effs in Hlast.
    rewrite length_insert in Hlast.
    destruct (decide (eff = pred (length (overlayEffects st)))) as [Heq|Hne].
    - rewrite <- Heq in Hlast.
      rewrite list_lookup_insert_eq in Hlast by done. injection Hlast as <-.
      simpl in Hp. apply (Hopen c); [by rewrite <- Heq|done|done].
    - rewrite list_lookup_insert_ne in Hlast by done.
      by apply (Hopen c'). }
  destruct (loadedPairs (OverlayEffect.needed c) ds) as [pairs|] eqn:Hall.
  - destruct (OverlayEffect.cancelled c) eqn:Hc.
    + split; [done|]. intros c' Hlast Hnone. by apply (Hkeep _ c').
    + split; [done|]. intros c' Hlast Hnone. simpl in Hlast.
      assert (eff = pred (length (overlayEffects st))) as Heq.
      { destruct (decide (S eff < length (overlayEffects st))) as [Hs|Hs]; [|lia].
        rewrite (Hsup eff c He Hs) in Hc. done. }
      fold effs in Hlast. unfold effs in Hlast. rewrite length_insert in Hlast.
      rewrite <- Heq in Hlast.
      rewrite list_lookup_insert_eq in Hlast by done. injection Hlast as <-.
      simpl in Hnone. fold ds in Hnone. congruence.
  - split; [done|]. intros c' Hlast Hnone. by apply (Hkeep _ c').
Qed.

Lemma onPointerDown_frame e st :
  overlays (onPointerDown e st) = overlays st ∧
  overlayImgs (onPointerDown e st) = overlayImgs st ∧
  overlayEffects (onPointerDown e st) = overlayEffects st ∧
  baseEffects (onPointerDown e st) = baseEffects st ∧
  baseImg (onPointerDown e st) = baseImg st.
Proof.
  unfold onPointerDown. cbv zeta. destruct (truthy _); [|done].
  by destruct (List.find _ _).
Qed.

Lemma step_cache_inv st ev : cache_inv st → cache_inv (step st ev).
Proof.
  intros Hinv. destruct ev; cbn [step].
  - unfold App.onUpload. case_decide; [done|].
    eapply cache_inv_ext; [| |exact Hinv].
    + apply (baseImageEffect_frame (with_baseImageUrl _ st)).
    + apply (baseImageEffect_frame (with_baseImageUrl _ st)).
  - by apply setOverlays_inv.
  - by apply setOverlays_inv.
  - by apply setOverlays_inv.
  - by apply setOverlays_inv.
  - eapply cache_inv_ext; [| |exact Hinv]; apply onPointerDown_frame.
  - unfold onPointerMove. destruct (drag st); [|done]. by apply setOverlays_inv.
  - done.
  - unfold onWheel. destruct (truthy _); [|done]. by apply setOverlays_inv.
  - eapply cache_inv_ext; [| |exact Hinv]; apply baseDecoded_frame.
  - by apply overlayDecoded_inv.
Qed.

Lemma reachable_cache_inv evs : cache_inv (run App.mount evs).
Proof.
  induction evs as [|ev evs IH] using rev_ind.
  - split.
    + intros i c _ Hone. change (S i < 1) in Hone. lia.
    + intros c Hlast Hnone. change (Some (OverlayEffect.mk false [] []) = Some c)
        in Hlast. injection Hlast as <-. done.
  - unfold run. rewrite fold_left_app. simpl. by apply step_cache_inv.
Qed.

Lemma setOverlays_overlayImgs f st :
  overlayImgs (setOverlays f st) = overlayImgs st.
Proof. apply (overlayImagesEffect_frame (with_overlays _ st)). Qed.

(** Only the completion of an overlay decode changes the cache. *)
Lemma step_overlayImgs_frame st ev :
  (∀ eff k r, ev ≠ OverlayDecoded eff k r) →
  overlayImgs (step st ev) = overlayImgs st.
Proof.
  intros Hev. destruct ev; cbn [step].
  - unfold App.onUpload. case_decide; [done|].
    apply (baseImageEffect_frame (with_baseImageUrl _ st)).
  - apply setOverlays_overlayImgs.
  - apply setOverlays_overlayImgs.
  - apply setOverlays_overlayImgs.
  - apply setOverlays_overlayImgs.
  - apply onPointerDown_frame.
  - unfold onPointerMove. destruct (drag st); [|done].
    apply setOverlays_overlayImgs.
  - done.
  - unfold onWheel. destruct (truthy _); [|done].
    apply setOverlays_overlayImgs.
  - apply baseDecoded_frame.
  - by destruct (Hev eff k r).
Qed.

Lemma overlayDecoded_keeps_cached eff k r st (id : string) img :
  cache_inv st →
  overlayImgs st !! id = Some img →
  overlayImgs (overlayDecoded eff k r st) !! id = Some img.
Proof.
  intros [Hsup Hopen] Hid. unfold overlayDecoded.
  destruct (overlayEffects st !! eff) as [c|] eqn:He; [|done].
  destruct (OverlayEffect.decodes c !! k) as [[| |]|] eqn:Hk; try done.
  assert (eff < length (overlayEffects st)) as Hlt by (by eapply lookup_lt_Some).
  destruct (loadedPairs _ (<[k:=_]> _)) as [pairs|] eqn:Hall; [|done].
  destruct (OverlayEffect.cancelled c) eqn:Hc; [done|]. simpl.
  assert (eff = pred (length (overlayEffects st))) as Heq.
  { destruct (decide (S eff < length (overlayEffects st))) as [Hs|Hs]; [|lia].
    rewrite (Hsup eff c He Hs) in Hc. done. }
  rewrite merge_lookup_notin; [done|].
  rewrite (loadedPairs_fst _ _ _ Hall). intros Hin.
  apply list_elem_of_fmap in Hin as (p & -> & Hp).
  rewrite (Hopen c) in Hid; [done| by rewrite <- Heq | | done].
  by apply (loadedPairs_unsettled _ _ k Pending).
Qed.

Lemma step_keeps_cached st ev (id : string) img :
  cache_inv st →
  overlayImgs st !! id = Some img →
  overlayImgs (step st ev) !! id = Some img.
Proof.
  intros Hinv Hid.
  destruct ev; try (by rewrite step_overlayImgs_frame).
  by apply overlayDecoded_keeps_cached.
Qed.
End CacheInvariant.

(** X5.  The cache is additive: from the first render on, once an id has a
    bitmap in the cache, no event ever removes it or replaces it by another
    bitmap, also after the overlay has been removed from the collection. *)
Theorem cached_bitmap_is_kept
    (before after : list Event) (id : string) (img : HTMLImageElement) :
  CanvasStage.overlayImgs (run App.mount before) !! id = Some img →
  CanvasStage.overlayImgs (run (run App.mount before) after) !! id = Some img.
Proof.
  intros Hid. induction after as [|ev after IH] using rev_ind; [done|].
  unfold run in *. rewrite fold_left_app. simpl.
  apply step_keeps_cached; [|done].
  change (cache_inv (run (run App.mount before) after)).
  unfold run. rewrite <- fold_left_app. apply reachable_cache_inv.
Qed.

Lemma cached_bitmap_is_kept_witness :
  CanvasStage.overlayImgs
    (run (run App.mount hat_loaded)
       [ClearAll; AddOverlay "a" "/overlays/glasses.png";
        OverlayDecoded 3 0 (Some glasses_bitmap)])
    !! "a"%string = Some hat_bitmap.
Proof.
  apply (cached_bitmap_is_kept hat_loaded). vm_compute. reflexivity.
Defined.

(** X6.  A superseded batch is dead: from the first render on, when a
    decode of an overlay effect run that is not the latest one completes,
    with success or failure, the cache is left as it is. *)
Theorem superseded_overlay_batch_is_discarded
    (evs : list Event) (eff k : nat) (r : option HTMLImageElement) :
  let st := run App.mount evs in
  (S eff < length (CanvasStage.overlayEffects st))%nat →
  CanvasStage.overlayImgs (step st (OverlayDecoded eff k r))
  = CanvasStage.overlayImgs st.
Proof.
  intros st Hlt. simpl. unfold CanvasStage.overlayDecoded.
  destruct (CanvasStage.overlayEffects st !! eff) as [c|] eqn:He; [|done].
  destruct (OverlayEffect.decodes c !! k) as [[| |]|]; try done.
  destruct (CanvasStage.loadedPairs _ _); [|done].
  by rewrite (proj1 (reachable_cache_inv evs) eff c He Hlt).
Qed.

Lemma superseded_overlay_batch_is_discarded_witness :
  CanvasStage.overlayImgs
    (step (run App.mount add_two_stickers) (OverlayDecoded 1 0 (Some hat_bitmap)))
  = ∅.
Proof.
  rewrite (superseded_overlay_batch_is_discarded add_two_stickers 1 0).
  - vm_compute. reflexivity.
  - vm_compute. lia.
Defined.

Section CompletedBatch.
Import CanvasStage.
Local Close Scope R_scope.

Lemma run_decodeEvents_overlays e outcomes ks st :
  overlays (run st (decodeEvents e outcomes ks)) = overlays st.
Proof.
  revert st. induction ks as [|k ks IH]; intros st; [done|].
  simpl. rewrite IH. apply overlayDecoded_frame.
Qed.

Lemma run_fresh_batch_success f st0 imgs ks :
  let needed := neededOf (overlayImgs st0) (f (overlays st0)) in
  length imgs = length needed →
  NoDup ks →
  Forall (λ k, k < length needed) ks →
  (∀ k, k < length needed → k ∈ ks) →
  overlayImgs
    (run (setOverlays f st0)
       (decodeEvents (length (overlayEffects st0)) (map Some imgs) ks)) =
  merge (zip needed.*1 imgs) (overlayImgs st0).
Proof.
  intros needed Hlen Hnd Hall Hcover.
  rewrite run_fresh_batch by (by rewrite ?length_map).
  fold needed. rewrite batchState_all.
  - rewrite <- list_fmap_compose.
    change (settled_as ∘ Some) with Fulfilled.
    by rewrite loadedPairs_fulfilled.
  - intros k Hk. apply Hcover. rewrite length_map in Hk. lia.
Qed.

Lemma filter_none {A} (f : A → bool) (l : list A) :
  (∀ x, In x l → f x = false) → List.filter f l = [].
Proof.
  induction l as [|a l IH]; [done|]. intros Hall. simpl.
  rewrite (Hall a) by (by left). apply IH. intros x Hx. apply Hall. by right.
Qed.
End CompletedBatch.

(** X7.  A batch that completed successfully is not requested again: after
    a change of the collection whose decodes have all succeeded, in whatever
    order and with no other event in between, no overlay of the collection
    is needed any more, so the next run of the effect returns before any
    decode. *)
Theorem completed_batch_needs_nothing
    (st0 : CanvasStage.State) (f : list OverlayItem → list OverlayItem)
    (imgs : list HTMLImageElement) (ks : list nat) :
  let needed :=
    CanvasStage.neededOf (CanvasStage.overlayImgs st0)
      (f (CanvasStage.overlays st0)) in
  let st' :=
    run (CanvasStage.setOverlays f st0)
      (decodeEvents (length (CanvasStage.overlayEffects st0))
         (map Some imgs) ks) in
  length imgs = length needed →
  NoDup ks →
  Forall (λ k, (k < length needed)%nat) ks →
  (∀ k, (k < length needed)%nat → k ∈ ks) →
  CanvasStage.neededOf (CanvasStage.overlayImgs st')
    (CanvasStage.overlays st') = [].
Proof.
  intros needed st' Hlen Hnd Hall Hcover. unfold st'.
  rewrite run_decodeEvents_overlays, setOverlays_overlays.
  rewrite run_fresh_batch_success by done. fold needed.
  unfold CanvasStage.neededOf at 1. apply filter_none. intros p Hp.
  assert (is_Some (CanvasStage.merge (zip needed.*1 imgs)
                     (CanvasStage.overlayImgs st0) !! p.1)) as [img ->];
    [|done].
  apply merge_is_Some.
  destruct (CanvasStage.overlayImgs st0 !! p.1) as [img|] eqn:Hc; [by right|].
  left. rewrite fst_zip by (rewrite length_fmap; lia).
  apply list_elem_of_fmap. exists p. split; [done|].
  unfold needed, CanvasStage.neededOf. apply list_elem_of_In, filter_In.
  split; [done|]. by rewrite Hc.
Qed.

Lemma completed_batch_needs_nothing_witness :
  CanvasStage.neededOf
    (CanvasStage.overlayImgs
       (run (CanvasStage.setOverlays (λ _, two_stickers) App.mount)
          (decodeEvents 1 (map Some [hat_bitmap; glasses_bitmap]) [1; 0]%nat)))
    (CanvasStage.overlays
       (run (CanvasStage.setOverlays (λ _, two_stickers) App.mount)
          (decodeEvents 1 (map Some [hat_bitmap; glasses_bitmap]) [1; 0]%nat)))
  = [].
Proof.
  apply (completed_batch_needs_nothing App.mount (λ _, two_stickers)
           [hat_bitmap; glasses_bitmap] [1; 0]%nat).
  - reflexivity.
  - compute_done.
  - compute_done.
  - intros [|[|k]] Hk.
    + apply elem_of_cons. right. apply elem_of_cons. by left.
    + apply elem_of_cons. by left.
    + vm_compute in Hk. lia.
Defined.

(** ** The base image slot, continued *)

(** X9.  A superseded decode of the base image that succeeds is discarded:
    from the first render on, when the decode of an effect run that is not
    the latest one completes with a bitmap, the slot, the collection, the
    cache, the selection and the drag state are all left as they are. *)
Theorem superseded_base_success_is_discarded
    (evs : list Event) (eff : nat) (img : HTMLImageElement) :
  let st := run App.mount evs in
  let st' := step st (BaseDecoded eff (Some img)) in
  (S eff < length (CanvasStage.baseEffects st))%nat →
  CanvasStage.baseImg st' = CanvasStage.baseImg st ∧
  CanvasStage.overlays st' = CanvasStage.overlays st ∧
  CanvasStage.overlayImgs st' = CanvasStage.overlayImgs st ∧
  CanvasStage.selectedId st' = CanvasStage.selectedId st ∧
  CanvasStage.drag st' = CanvasStage.drag st.
Proof.
  intros st st' Hlt.
  split; [by apply reachable_stale_success_discarded|].
  destruct (baseDecoded_frame eff (Some img) st) as (? & ? & ? & ? & _).
  done.
Qed.

Lemma superseded_base_success_is_discarded_witness :
  CanvasStage.baseImg
    (step (run App.mount [Upload "blob:A"; Upload "blob:B"])
       (BaseDecoded 1 (Some sample_photo)))
  = None.
Proof.
  destruct (superseded_base_success_is_discarded
              [Upload "blob:A"; Upload "blob:B"] 1 sample_photo) as [Hslot _].
  - vm_compute. lia.
  - rewrite Hslot. vm_compute. reflexivity.
Defined.

Section LatestBaseRequest.
Import CanvasStage.
Local Close Scope R_scope.

Lemma onUpload_new_request st url :
  url ≠ ""%string →
  baseImageUrl st ≠ Some url →
  baseImg (App.onUpload url st) = baseImg st ∧
  baseEffects (App.onUpload url st) !! length (baseEffects st)
    = Some (BaseEffect.mk false true).
Proof.
  intros Hne Hnew. unfold App.onUpload. rewrite decide_False by done.
  unfold baseImageEffect. cbv zeta. simpl.
  replace (negb (String.eqb url "")) with true
    by (symmetry; apply negb_true_iff; by apply String.eqb_neq).
  simpl. split; [done|].
  rewrite lookup_app_r by (by rewrite length_alter).
  by rewrite length_alter, Nat.sub_diag.
Qed.

Lemma setOverlays_baseEffects f st :
  baseEffects (setOverlays f st) = baseEffects st.
Proof. apply (overlayImagesEffect_frame (with_overlays _ st)). Qed.

Lemma step_keeps_base_request st ev e c :
  keeps_base_request e ev →
  baseEffects st !! e = Some c →
  baseEffects (step st ev) !! e = Some c.
Proof.
  intros Hev He. destruct ev; cbn [step].
  - done.
  - unfold App.addOverlay. by rewrite setOverlays_baseEffects.
  - unfold App.addText. by rewrite setOverlays_baseEffects.
  - unfold App.removeLast. by rewrite setOverlays_baseEffects.
  - unfold App.clearAll. by rewrite setOverlays_baseEffects.
  - by rewrite (proj1 (proj2 (proj2 (proj2 (onPointerDown_frame _ _))))).
  - unfold onPointerMove. destruct (drag st); [|done].
    by rewrite setOverlays_baseEffects.
  - done.
  - unfold onWheel. destruct (truthy _); [|done].
    by rewrite setOverlays_baseEffects.
  - simpl in Hev. unfold baseDecoded.
    destruct (baseEffects st !! eff) as [c'|]; [|done].
    destruct (BaseEffect.awaiting c'); [|done].
    assert (baseEffects
              (with_baseEffects (<[eff:=BaseEffect.settle c']> (baseEffects st)) st)
              !! e = Some c) as Hkeep
      by (simpl; by rewrite list_lookup_insert_ne).
    destruct r; [|done]. by destruct (BaseEffect.cancelled c').
  - by rewrite (proj2 (proj2 (proj2 (proj2 (overlayDecoded_frame _ _ _ _))))).
Qed.

Lemma run_keeps_base_request evs st e c :
  Forall (keeps_base_request e) evs →
  baseEffects st !! e = Some c →
  baseEffects (run st evs) !! e = Some c.
Proof.
  revert st. induction evs as [|ev evs IH]; intros st Hall He; [done|].
  apply Forall_cons in Hall as [Hev Hall]. simpl.
  apply IH; [done|]. by apply step_keeps_base_request.
Qed.
End LatestBaseRequest.

(** X10.  The latest request wins: after the base image has been changed to
    a new non-empty url, the bitmap in the slot stays until the decode of
    that url completes, and whatever happens in between, short of another
    change of the base image, the completion of that decode puts its outcome
    into the slot: the bitmap on success, nothing on failure. *)
Theorem latest_base_decode_is_applied
    (st : CanvasStage.State) (url : string) (evs : list Event)
    (r : option HTMLImageElement) :
  let e := length (CanvasStage.baseEffects st) in
  url ≠ ""%string →
  CanvasStage.baseImageUrl st ≠ Some url →
  Forall (keeps_base_request e) evs →
  CanvasStage.baseImg (step st (Upload url)) = CanvasStage.baseImg st ∧
  CanvasStage.baseImg
    (step (run (step st (Upload url)) evs) (BaseDecoded e r)) = r.
Proof.
  intros e Hne Hnew Hevs.
  destruct (onUpload_new_request st url Hne Hnew) as [Hslot Hreq].
  split; [done|].
  pose proof (run_keeps_base_request evs _ e _ Hevs Hreq) as Hopen.
  cbn [step]. unfold CanvasStage.baseDecoded.
  change (step st (Upload url)) with (App.onUpload url st).
  rewrite Hopen. simpl. by destruct r.
Qed.

Lemma latest_base_decode_is_applied_witness :
  CanvasStage.baseImg
    (step (run (step App.mount (Upload "blob:A"))
             [AddText "t"; BaseDecoded 0 None])
       (BaseDecoded 1 (Some sample_photo)))
  = Some sample_photo.
Proof.
  apply (latest_base_decode_is_applied App.mount "blob:A"
           [AddText "t"; BaseDecoded 0 None] (Some sample_photo)).
  - done.
  - vm_compute. congruence.
  - repeat constructor. vm_compute. lia.
Defined.

(** ** Interaction, continued *)

Section Interaction.
Import CanvasStage.

Lemma onWheel_identity dy sh st :
  map identity_of (overlays (onWheel dy sh st)) = map identity_of (overlays st).
Proof.
  unfold onWheel. destruct (truthy _); [|done].
  rewrite setOverlays_overlays, map_map. apply map_ext. intros o.
  destruct (negb _); [done|]. by destruct sh.
Qed.

Lemma onPointerMove_identity e st :
  map identity_of (overlays (onPointerMove e st))
  = map identity_of (overlays st).
Proof.
  unfold onPointerMove. destruct (drag st) as [d|]; [|done].
  rewrite setOverlays_overlays, map_map. apply map_ext. intros o.
  by destruct (String.eqb _ _).
Qed.

Lemma step_identity st ev :
  engine_event ev →
  map identity_of (overlays (step st ev)) = map identity_of (overlays st).
Proof.
  intros Hev. destruct ev; cbn [step]; try done.
  - by rewrite (proj1 (onPointerDown_frame _ _)).
  - apply onPointerMove_identity.
  - apply onWheel_identity.
  - by rewrite (proj1 (baseDecoded_frame _ _ _)).
  - by rewrite (proj1 (overlayDecoded_frame _ _ _ _)).
Qed.

Lemma pickOverlay_all_far ovs x y :
  (∀ o, o ∈ ovs → 120 <= distTo x y o) → pickOverlay ovs x y = None.
Proof.
  intros Hfar. destruct ovs as [|o0 l] eqn:E; [done|]. rewrite <- E in *.
  destruct (first_nearest_exists x y ovs) as (k & o & Hfn); [by subst|].
  rewrite (pickOverlay_first_nearest x y ovs k o Hfn).
  destruct Hfn as [Hk _]. apply list_elem_of_lookup_2 in Hk.
  specialize (Hfar o Hk). by apply Rltb_ge in Hfar as ->.
Qed.

Lemma step_keeps_idle st ev :
  not_pointer_down ev → drag st = None → drag (step st ev) = None.
Proof.
  intros Hev Hd. destruct ev; try done;
    by rewrite step_keeps_drag.
Qed.

Lemma NoDup_map_eq {A B} (f : A → B) (l : list A) (a b : A) :
  NoDup (map f l) → a ∈ l → b ∈ l → f a = f b → a = b.
Proof.
  induction l as [|c l IH]; [by intros _ ?%elem_of_nil|].
  simpl. intros [Hnot Hnd]%NoDup_cons Ha Hb Hab.
  apply elem_of_cons in Ha as [->|Ha]; apply elem_of_cons in Hb as [->|Hb].
  - done.
  - destruct Hnot. rewrite Hab. apply list_elem_of_In, in_map.
    by apply list_elem_of_In.
  - destruct Hnot. rewrite <- Hab. apply list_elem_of_In, in_map.
    by apply list_elem_of_In.
  - by apply IH.
Qed.

Lemma pickStep_anchor x y best o o' :
  anchor_of o = anchor_of o' → pickStep x y best o = pickStep x y best o'.
Proof.
  intros [= Hid Hx Hy]. unfold pickStep, distTo. cbv zeta.
  by rewrite Hid, Hx, Hy.
Qed.

Lemma pick_fold_anchor x y ovs : ∀ ovs' best,
  map anchor_of ovs = map anchor_of ovs' →
  fold_left (pickStep x y) ovs best = fold_left (pickStep x y) ovs' best.
Proof.
  induction ovs as [|o ovs IH]; intros [|o' ovs'] best Heq; try done.
  simpl in Heq.
  assert (Some (anchor_of o) = Some (anchor_of o')) as Ho
    by exact (f_equal head Heq).
  apply (inj Some) in Ho.
  assert (map anchor_of ovs = map anchor_of ovs') as Hrest
    by exact (f_equal tail Heq).
  simpl. rewrite (pickStep_anchor x y best o o' Ho). by apply IH.
Qed.

Lemma run_shift_wheel_overlays deltas st sid :
  selectedId st = Some sid → sid ≠ ""%string →
  overlays (run st (map (λ dy, Wheel dy true) deltas)) =
    map (λ o, if String.eqb (OverlayItem.id o) sid
              then OverlayItem.with_rotation o
                     (fold_left (λ r dy, r + sign dy * 0.08) deltas
                                (OverlayItem.rotation o))
              else o) (overlays st).
Proof.
  intros Hsel Hne. revert st Hsel.
  induction deltas as [|dy deltas IH]; intros st Hsel.
  - simpl. rewrite <- (map_id (overlays st)) at 1.
    apply map_ext. intros o. destruct o. by destruct (String.eqb _ _).
  - simpl. rewrite IH by (by rewrite onWheel_selectedId).
    unfold onWheel.
    replace (truthy (selectedId st)) with true
      by (symmetry; apply truthy_Some; eauto).
    rewrite setOverlays_overlays, Hsel. simpl.
    rewrite map_map. apply map_ext. intros o.
    destruct (String.eqb (OverlayItem.id o) sid) eqn:E; simpl; by rewrite E.
Qed.

Lemma fold_rotation_pos deltas r :
  Forall (λ dy, 0 < dy) deltas →
  fold_left (λ r dy, r + sign dy * 0.08) deltas r
  = r + INR (length deltas) * 0.08.
Proof.
  intros Hall. revert r. induction Hall as [|dy deltas Hdy _ IH]; intros r.
  - simpl. lra.
  - cbn [fold_left]. rewrite IH. rewrite length_cons, S_INR.
    unfold sign. apply Rltb_lt in Hdy as ->. lra.
Qed.

Lemma fold_rotation_neg deltas r :
  Forall (λ dy, dy < 0) deltas →
  fold_left (λ r dy, r + sign dy * 0.08) deltas r
  = r - INR (length deltas) * 0.08.
Proof.
  intros Hall. revert r. induction Hall as [|dy deltas Hdy _ IH]; intros r.
  - simpl. lra.
  - cbn [fold_left]. rewrite IH. rewrite length_cons, S_INR.
    unfold sign.
    replace (Rltb 0 dy) with false by (symmetry; apply Rltb_ge; lra).
    apply Rltb_lt in Hdy as ->. lra.
Qed.
End Interaction.

(** X11.  The engine never creates, deletes, reorders or retypes an overlay:
    over any run of pointer, wheel and decode events the ids, kinds, sources
    and texts of the collection, in order, are what they were. *)
Theorem engine_keeps_collection_identity
    (st : CanvasStage.State) (evs : list Event) :
  Forall engine_event evs →
  map identity_of (CanvasStage.overlays (run st evs))
  = map identity_of (CanvasStage.overlays st).
Proof.
  revert st. induction evs as [|ev evs IH]; intros st Hall; [done|].
  apply Forall_cons in Hall as [Hev Hall]. simpl.
  rewrite IH by done. by apply step_identity.
Qed.

Lemma engine_keeps_collection_identity_witness :
  map identity_of
    (CanvasStage.overlays
       (run selected_sticker
          [PointerDown pointer_at_25_5; PointerMove pointer_at_30_10;
           Wheel 1 false; Wheel (-1) true; PointerUp]))
  = [("a", image, Some "/overlays/hat.png", None);
     ("b", text, None, Some "LOL")]%string.
Proof.
  rewrite engine_keeps_collection_identity; [reflexivity|].
  repeat constructor.
Defined.

(** X12.  Pointer-down sets the selection to the result of the hit-test and
    leaves the collection, the cache and the closures of the effects as they
    are.  When every overlay is at least 120 away from the pointer (or there
    is none), the selection becomes none and the drag state is left as it
    is. *)
Theorem pointer_down_sets_selection
    (st : CanvasStage.State) (e : PointerEvent) :
  let p := CanvasStage.getPointerPos e in
  let st' := step st (PointerDown e) in
  CanvasStage.selectedId st'
    = CanvasStage.pickOverlay (CanvasStage.overlays st) p.1 p.2 ∧
  CanvasStage.overlays st' = CanvasStage.overlays st ∧
  CanvasStage.overlayImgs st' = CanvasStage.overlayImgs st ∧
  CanvasStage.overlayEffects st' = CanvasStage.overlayEffects st ∧
  ((∀ o, o ∈ CanvasStage.overlays st → 120 <= CanvasStage.distTo p.1 p.2 o) →
   CanvasStage.selectedId st' = None ∧
   CanvasStage.drag st' = CanvasStage.drag st).
Proof.
  cbv zeta. cbn [step].
  destruct (onPointerDown_frame e st) as (Ho & Hc & Hf & _).
  assert (CanvasStage.selectedId (CanvasStage.onPointerDown e st)
          = CanvasStage.pickOverlay (CanvasStage.overlays st)
              (CanvasStage.getPointerPos e).1 (CanvasStage.getPointerPos e).2)
    as Hsel.
  { unfold CanvasStage.onPointerDown. cbv zeta.
    destruct (truthy _); [|done]. by destruct (List.find _ _). }
  split; [done|]. split; [done|]. split; [done|]. split; [done|].
  intros Hfar. apply pickOverlay_all_far in Hfar.
  split; [by rewrite Hsel|].
  unfold CanvasStage.onPointerDown. cbv zeta. by rewrite Hfar.
Qed.

(** X13.  Pointer-up ends the drag until the next pointer-down: whatever
    other events follow, the drag state stays none and a pointer-move leaves
    the whole state as it is (no new collection, no effect run). *)
Theorem pointer_up_ends_drag (st : CanvasStage.State) (evs : list Event) :
  Forall not_pointer_down evs →
  let st' := run (step st PointerUp) evs in
  CanvasStage.drag st' = None ∧
  ∀ e, step st' (PointerMove e) = st'.
Proof.
  intros Hall. cbv zeta.
  assert (CanvasStage.drag (run (step st PointerUp) evs) = None) as Hd.
  { assert (CanvasStage.drag (step st PointerUp) = None) as H0 by done.
    revert H0. generalize (step st PointerUp). clear st.
    induction Hall as [|ev evs Hev _ IH]; intros st Hd; [done|].
    simpl. apply IH. by apply step_keeps_idle. }
  split; [done|]. intros e.
  set (st' := run (step st PointerUp) evs) in *. cbn [step].
  unfold CanvasStage.onPointerMove. by rewrite Hd.
Qed.

Lemma pointer_up_ends_drag_witness :
  CanvasStage.drag
    (run (step dragging_vanished PointerUp)
       [PointerMove pointer_at_25_5; Wheel 1 false; AddText "t"])
  = None.
Proof.
  apply (pointer_up_ends_drag dragging_vanished
           [PointerMove pointer_at_25_5; Wheel 1 false; AddText "t"]).
  repeat constructor.
Defined.

(** X14.  A drag translates by the displacement of the pointer: with
    distinct ids, after a pointer-down at p0 that hits the overlay of id
    [id] and a pointer-move to p, the [x] and [y] of that overlay are its
    old ones plus p - p0, its other fields are unchanged, every other
    overlay is as it was and the collection keeps its length and order; a
    move back to p0 restores the collection. *)
Theorem drag_translates_by_pointer_displacement
    (st : CanvasStage.State) (e0 e : PointerEvent) (id : string) :
  let p0 := CanvasStage.getPointerPos e0 in
  let p := CanvasStage.getPointerPos e in
  let st' := run st [PointerDown e0; PointerMove e] in
  NoDup (map OverlayItem.id (CanvasStage.overlays st)) →
  CanvasStage.pickOverlay (CanvasStage.overlays st) p0.1 p0.2 = Some id →
  id ≠ ""%string →
  length (CanvasStage.overlays st') = length (CanvasStage.overlays st) ∧
  (∀ i o1, CanvasStage.overlays st !! i = Some o1 →
     ∃ o2, CanvasStage.overlays st' !! i = Some o2 ∧
       (OverlayItem.id o1 = id →
        OverlayItem.x o2 = OverlayItem.x o1 + (p.1 - p0.1) ∧
        OverlayItem.y o2 = OverlayItem.y o1 + (p.2 - p0.2) ∧
        moved_only o1 o2) ∧
       (OverlayItem.id o1 ≠ id → o2 = o1)) ∧
  CanvasStage.overlays (run st [PointerDown e0; PointerMove e0])
  = CanvasStage.overlays st.
Proof.
  intros p0 p st' Hnd Hpick Hne.
  destruct (onPointerDown_starts_drag st e0 id Hpick Hne)
    as (o & _ & Hin & Hid & _ & Hovs & Hdrag).
  assert (∀ e1,
    CanvasStage.overlays (run st [PointerDown e0; PointerMove e1]) =
    map (λ o, if String.eqb (OverlayItem.id o) id
              then OverlayItem.with_xy o
                     (OverlayItem.x o + ((CanvasStage.getPointerPos e1).1 - p0.1))
                     (OverlayItem.y o + ((CanvasStage.getPointerPos e1).2 - p0.2))
              else o) (CanvasStage.overlays st)) as Hmove.
  { intros e1. simpl. rewrite (onPointerMove_overlays _ e1 _ Hdrag), Hovs.
    simpl. apply map_ext_in. intros o1 Hin1%list_elem_of_In.
    destruct (String.eqb_spec (OverlayItem.id o1) id) as [Heq|]; [|done].
    assert (o1 = o) as ->.
    { apply (NoDup_map_eq OverlayItem.id (CanvasStage.overlays st));
        [done|done|done|congruence]. }
    unfold OverlayItem.with_xy. f_equal; unfold p0; lra. }
  split; [|split].
  - unfold st'. by rewrite Hmove, length_map.
  - intros i o1 Hi. unfold st'. rewrite Hmove, list_lookup_fmap, Hi. simpl.
    eexists. split; [done|].
    destruct (String.eqb_spec (OverlayItem.id o1) id); split; try done;
      intros _; by repeat split.
  - rewrite Hmove.
    rewrite <- (map_id (CanvasStage.overlays st)) at 2.
    apply map_ext. intros o1. destruct (String.eqb _ _); [|done].
    destruct o1. unfold OverlayItem.with_xy. simpl. f_equal; unfold p0; lra.
Qed.

Lemma drag_translates_by_pointer_displacement_witness :
  ∃ o2,
    CanvasStage.overlays
      (run two_overlays [PointerDown pointer_at_25_5; PointerMove pointer_at_30_10])
      !! 1%nat = Some o2 ∧
    OverlayItem.x o2 = 20 + (30 - 0 - (25 - 0)) ∧
    OverlayItem.y o2 = 0 + (10 - 0 - (5 - 0)).
Proof.
  assert (CanvasStage.distTo (25 - 0) (5 - 0) sticker_at_origin
          = sqrt (25 * 25 + 5 * 5)) as Ha.
  { unfold CanvasStage.distTo. simpl. f_equal. lra. }
  assert (CanvasStage.distTo (25 - 0) (5 - 0) label_at_20
          = sqrt (5 * 5 + 5 * 5)) as Hb.
  { unfold CanvasStage.distTo. simpl. f_equal. lra. }
  assert (sqrt (5 * 5 + 5 * 5) < sqrt (25 * 25 + 5 * 5)) as Hlt.
  { apply sqrt_lt_1; lra. }
  assert (sqrt (5 * 5 + 5 * 5) < 120) as Hnear.
  { rewrite <- (sqrt_square 120) by lra. apply sqrt_lt_1; lra. }
  destruct (drag_translates_by_pointer_displacement
              two_overlays pointer_at_25_5 pointer_at_30_10 "b")
    as (_ & Hat & _).
  - simpl. compute_done.
  - simpl. unfold CanvasStage.pickOverlay. simpl. rewrite Ha, Hb.
    apply Rltb_lt in Hlt as ->. simpl.
    by apply Rltb_lt in Hnear as ->.
  - done.
  - destruct (Hat 1%nat label_at_20) as (o2 & Ho2 & Hpos & _); [reflexivity|].
    destruct Hpos as (Hx & Hy & _); [done|].
    exists o2. split; [exact Ho2|]. split; [exact Hx | exact Hy].
Defined.

(** X15.  Wheel with the modifier key rotates without bound: with an overlay
    selected, after n such events away from the user the rotation of every
    overlay of the selected id is its old rotation plus n * 0.08, after n
    events towards the user it is the old rotation minus n * 0.08; its
    position, its scale and its other fields are unchanged, every other
    overlay is as it was and the collection keeps its length and order. *)
Theorem shift_wheel_accumulates_rotation
    (st : CanvasStage.State) (sid : string) (deltas : list R) :
  CanvasStage.selectedId st = Some sid →
  sid ≠ ""%string →
  let st' := run st (map (λ dy, Wheel dy true) deltas) in
  length (CanvasStage.overlays st') = length (CanvasStage.overlays st) ∧
  ∀ i o1, CanvasStage.overlays st !! i = Some o1 →
    ∃ o2, CanvasStage.overlays st' !! i = Some o2 ∧
      (OverlayItem.id o1 ≠ sid → o2 = o1) ∧
      (OverlayItem.id o1 = sid →
       rotated_only o1 o2 ∧
       (Forall (λ dy, 0 < dy) deltas →
        OverlayItem.rotation o2
        = OverlayItem.rotation o1 + INR (length deltas) * 0.08) ∧
       (Forall (λ dy, dy < 0) deltas →
        OverlayItem.rotation o2
        = OverlayItem.rotation o1 - INR (length deltas) * 0.08)).
Proof.
  intros Hsel Hne. cbv zeta.
  rewrite (run_shift_wheel_overlays deltas st sid Hsel Hne).
  split; [by rewrite length_map|].
  intros i o1 Hi. rewrite list_lookup_fmap, Hi. simpl.
  eexists. split; [done|].
  destruct (String.eqb_spec (OverlayItem.id o1) sid); split; try done.
  intros _. split; [by repeat split|]. split; intros Hall; simpl.
  - by apply fold_rotation_pos.
  - by apply fold_rotation_neg.
Qed.

Lemma shift_wheel_accumulates_rotation_witness :
  ∃ o2,
    CanvasStage.overlays
      (run selected_sticker (map (λ dy, Wheel dy true) [3; 1; 2])) !! 0%nat
    = Some o2 ∧
    OverlayItem.rotation o2 = 0 + INR 3 * 0.08.
Proof.
  destruct (shift_wheel_accumulates_rotation selected_sticker "a" [3; 1; 2])
    as [_ Hat]; [reflexivity | done |].
  destruct (Hat 0%nat sticker_at_origin) as (o2 & Ho2 & _ & Hsel);
    [reflexivity|].
  destruct Hsel as (_ & Hpos & _); [done|].
  exists o2. split; [exact Ho2|]. apply Hpos. repeat constructor; lra.
Defined.

(** X16.  Wheel without a target changes no overlay: with no selection (or
    the empty id) the event leaves the whole state as it is, and with a
    selection that no overlay of the collection carries, as after the
    selected overlay was undone, the collection is left as it is. *)
Theorem wheel_without_target
    (st : CanvasStage.State) (deltaY : R) (shiftKey : bool) :
  (truthy (CanvasStage.selectedId st) = false →
   step st (Wheel deltaY shiftKey) = st) ∧
  ((∀ o, o ∈ CanvasStage.overlays st →
         Some (OverlayItem.id o) ≠ CanvasStage.selectedId st) →
   CanvasStage.overlays (step st (Wheel deltaY shiftKey))
   = CanvasStage.overlays st).
Proof.
  cbn [step]. unfold CanvasStage.onWheel. split.
  - by intros ->.
  - intros Hnone. destruct (truthy _) eqn:Ht; [|done].
    apply truthy_Some in Ht as (sid & Hsel & _).
    rewrite setOverlays_overlays, Hsel. simpl.
    rewrite <- (map_id (CanvasStage.overlays st)) at 2.
    apply map_ext_in. intros o Hin%list_elem_of_In.
    destruct (String.eqb_spec (OverlayItem.id o) sid) as [Heq|]; [|done].
    destruct (Hnone o Hin). by rewrite Hsel, Heq.
Qed.

(** X17.  The edits of the owner: a new sticker or text is appended at the
    end of the collection (painted last, on top) and the overlays before it
    are untouched; undo right after an addition restores the collection;
    undo on the empty collection leaves it empty; clear empties it.  None of
    them touches the selection or the drag state, so a selection can outlive
    its overlay. *)
Theorem owner_edits (st : CanvasStage.State) (id src : string) :
  CanvasStage.overlays (step st (AddOverlay id src)) =
    CanvasStage.overlays st ++
    [OverlayItem.mk id image 300 300 0.6 0 (Some src) None] ∧
  CanvasStage.overlays (step st (AddText id)) =
    CanvasStage.overlays st ++
    [OverlayItem.mk id text 300 80 1 0 None (Some "LOL"%string)] ∧
  CanvasStage.overlays (run st [AddOverlay id src; RemoveLast])
    = CanvasStage.overlays st ∧
  CanvasStage.overlays (run st [AddText id; RemoveLast])
    = CanvasStage.overlays st ∧
  (CanvasStage.overlays st = [] →
   CanvasStage.overlays (step st RemoveLast) = []) ∧
  CanvasStage.overlays (step st ClearAll) = [] ∧
  (∀ ev, ev = AddOverlay id src ∨ ev = AddText id ∨ ev = RemoveLast
         ∨ ev = ClearAll →
     CanvasStage.selectedId (step st ev) = CanvasStage.selectedId st ∧
     CanvasStage.drag (step st ev) = CanvasStage.drag st).
Proof.
  split; [apply setOverlays_overlays|]. split; [apply setOverlays_overlays|].
  split; [|split; [|split; [|split]]].
  - simpl. unfold App.removeLast, App.addOverlay.
    rewrite !setOverlays_overlays. apply removelast_last.
  - simpl. unfold App.removeLast, App.addText.
    rewrite !setOverlays_overlays. apply removelast_last.
  - intros Hnil. cbn [step]. unfold App.removeLast.
    by rewrite setOverlays_overlays, Hnil.
  - cbn [step]. unfold App.clearAll. by rewrite setOverlays_overlays.
  - intros ev [-> | [-> | [-> | ->]]]; cbn [step];
      (split; [apply setOverlays_selectedId | apply setOverlays_drag]).
Qed.

(** X18.  The hit-test reads only the id and the position of an overlay: two
    collections that agree on these, overlay by overlay, give the same
    result, whatever the kinds, scales, rotations, sources and texts.  An
    enlarged overlay is no easier to hit. *)
Theorem pickOverlay_reads_anchor_only
    (ovs ovs' : list OverlayItem) (x y : R) :
  map anchor_of ovs = map anchor_of ovs' →
  CanvasStage.pickOverlay ovs x y = CanvasStage.pickOverlay ovs' x y.
Proof.
  intros Heq. unfold CanvasStage.pickOverlay.
  destruct ovs as [|o l], ovs' as [|o' l']; try done.
  by rewrite (pick_fold_anchor x y (o :: l) (o' :: l') None Heq).
Qed.

Lemma pickOverlay_reads_anchor_only_witness :
  CanvasStage.pickOverlay [big_turned_sticker; label_at_20] 200 0
  = CanvasStage.pickOverlay [sticker_at_origin; label_at_20] 200 0.
Proof.
  apply pickOverlay_reads_anchor_only. reflexivity.
Defined.

(** ** Rendering, continued *)

Section Frame.
Import Canvas CanvasStage.

Lemma drawOverlay_unresolved overlayImgs selectedId ctx o :
  OverlayItem.kind o = image →
  truthy (OverlayItem.src o) = false ∨ overlayImgs !! OverlayItem.id o = None →
  drawOverlay overlayImgs selectedId ctx o = ctx.
Proof.
  intros Hk Hun. unfold drawOverlay, drawShape. cbv zeta. rewrite Hk.
  destruct (truthy (OverlayItem.src o)); [|by destruct ctx].
  destruct Hun as [? | ->]; [done|]. by destruct ctx.
Qed.

Lemma is_selected_false selectedId o :
  Some (OverlayItem.id o) ≠ selectedId → is_selected selectedId o = false.
Proof.
  intros Hne. unfold is_selected. destruct selectedId as [s|]; [|done].
  destruct (String.eqb_spec (OverlayItem.id o) s); [congruence|done].
Qed.

Lemma overlayPaints_no_outline overlayImgs selectedId base o :
  is_selected selectedId o = false →
  Forall (λ p, is_outline p = false)
    (overlayPaints overlayImgs selectedId base o).
Proof.
  intros Hsel. unfold overlayPaints, drawOverlay, drawShape, starting_from.
  cbv zeta. rewrite Hsel.
  destruct (OverlayItem.kind o).
  - destruct (truthy (OverlayItem.src o)); [|by constructor].
    destruct (overlayImgs !! OverlayItem.id o); simpl; by repeat constructor.
  - destruct (truthy (OverlayItem.text o)); simpl; by repeat constructor.
Qed.

End Frame.

(** X19.  An image overlay without a bitmap is invisible: when its source is
    empty or absent, or the cache has no bitmap under its id (not decoded
    yet, or the decode failed), its iteration of the overlay loop returns
    the context it was given, so neither a bitmap nor an outline is painted,
    whatever the selection, and the frame of a collection that holds it is
    the frame without it. *)
Theorem unresolved_image_overlay_invisible
    (overlayImgs : gmap string HTMLImageElement) (o : OverlayItem) :
  OverlayItem.kind o = image →
  truthy (OverlayItem.src o) = false ∨ overlayImgs !! OverlayItem.id o = None →
  (∀ selectedId ctx,
     CanvasStage.drawOverlay overlayImgs selectedId ctx o = ctx) ∧
  (∀ selectedId before after ctx,
     fold_left (CanvasStage.drawOverlay overlayImgs selectedId)
       (before ++ o :: after) ctx
     = fold_left (CanvasStage.drawOverlay overlayImgs selectedId)
         (before ++ after) ctx).
Proof.
  intros Hk Hun.
  assert (∀ selectedId ctx,
            CanvasStage.drawOverlay overlayImgs selectedId ctx o = ctx) as Hnone
    by (intros; by apply drawOverlay_unresolved).
  split; [done|]. intros selectedId before after ctx.
  rewrite !fold_left_app. simpl. by rewrite Hnone.
Qed.

Lemma unresolved_image_overlay_invisible_witness :
  CanvasStage.drawOverlay ∅ (Some "a"%string) Canvas.fresh sticker_at_origin
  = Canvas.fresh.
Proof.
  destruct (unresolved_image_overlay_invisible ∅ sticker_at_origin)
    as [Hnone _]; [reflexivity | by right |].
  apply Hnone.
Defined.

(** X20.  No outline without a selected overlay: when no overlay of the
    collection carries the selected id, in particular when nothing is
    selected, the frame holds no stroked rectangle. *)
Theorem no_outline_without_selected_overlay
    (st : CanvasStage.State) (clientWidth : option R) (devicePixelRatio : R) :
  (∀ o, o ∈ CanvasStage.overlays st →
        Some (OverlayItem.id o) ≠ CanvasStage.selectedId st) →
  Forall (λ p, is_outline p = false)
    (Canvas.painted
       (CanvasStage.context (CanvasStage.draw st clientWidth devicePixelRatio))).
Proof.
  intros Hnone. unfold CanvasStage.draw, CanvasStage.stageSize.
  cbv zeta. simpl.
  rewrite (proj2 (proj2 (drawOverlays_frame _ _ _ _))).
  apply Forall_app. split.
  - eapply Forall_impl; [apply base_layer_paints|]. by intros p [_ ?].
  - apply Forall_concat_map. intros o Ho.
    apply overlayPaints_no_outline, is_selected_false. by apply Hnone.
Qed.

Lemma no_outline_without_selected_overlay_witness :
  Forall (λ p, is_outline p = false)
    (Canvas.painted
       (CanvasStage.context (CanvasStage.draw two_overlays (Some 480) 2))).
Proof.
  apply no_outline_without_selected_overlay. intros o _. done.
Defined.

(** X21.  The frame is drawn in logical units: the density factor
    [devicePixelRatio || 1] is never zero, the pixel buffer is square, every
    paint of the background and the base layer is issued under the uniform
    scaling by that factor, and every paint of an overlay under the local
    frame of an overlay of the collection over that scaling. *)
Theorem frame_in_logical_units
    (st : CanvasStage.State) (clientWidth : option R) (devicePixelRatio : R) :
  let k := CanvasStage.dprOf devicePixelRatio in
  let canvas := CanvasStage.draw st clientWidth devicePixelRatio in
  k ≠ 0 ∧
  (devicePixelRatio ≠ 0 → k = devicePixelRatio) ∧
  CanvasStage.width canvas = CanvasStage.height canvas ∧
  Forall (λ p,
      Canvas.transform (Canvas.state_of p) = Canvas.scaling k k ∨
      ∃ o, o ∈ CanvasStage.overlays st ∧
           Canvas.transform (Canvas.state_of p)
           = localFrame (Canvas.scaling k k) o)
    (Canvas.painted (CanvasStage.context canvas)).
Proof.
  cbv zeta. split; [apply dprOf_nonzero|]. split; [|split; [done|]].
  { intros Hne. unfold CanvasStage.dprOf.
    by destruct (Req_dec_T devicePixelRatio 0). }
  unfold CanvasStage.draw, CanvasStage.stageSize. cbv zeta. simpl.
  rewrite (proj2 (proj2 (drawOverlays_frame _ _ _ _))).
  set (size := Tools.clamp (default 600 clientWidth) 320 900).
  set (k := CanvasStage.dprOf devicePixelRatio).
  destruct (base_layer_paints (CanvasStage.baseImg st) size size k)
    as [Hcur Hlayer].
  apply Forall_app. split.
  - eapply Forall_impl; [exact Hlayer|]. intros p [Hp _]. by left.
  - apply Forall_concat_map. intros o Ho.
    eapply Forall_impl; [apply overlayPaints_local|].
    intros p (Hp & _ & _). right. exists o. split; [done|].
    by rewrite Hp, Hcur.
Qed.


(** X22.  Every visible overlay of the collection is in the frame: an image
    overlay with a source and a cached bitmap is painted with that bitmap at
    its natural size, centred at the origin of its local frame; a text
    overlay with a non-empty text is painted with that text at the origin of
    its local frame, centred, in the 48px display font. *)
Theorem visible_overlays_are_painted
    (st : CanvasStage.State) (clientWidth : option R) (devicePixelRatio : R)
    (o : OverlayItem) :
  let k := CanvasStage.dprOf devicePixelRatio in
  let frame :=
    Canvas.painted
      (CanvasStage.context (CanvasStage.draw st clientWidth devicePixelRatio)) in
  o ∈ CanvasStage.overlays st →
  (OverlayItem.kind o = image →
   truthy (OverlayItem.src o) = true →
   ∀ img, CanvasStage.overlayImgs st !! OverlayItem.id o = Some img →
     ∃ s, Canvas.transform s = localFrame (Canvas.scaling k k) o ∧
          Canvas.DrawImage s img
            (- naturalWidth img / 2) (- naturalHeight img / 2)
            (naturalWidth img) (naturalHeight img) ∈ frame) ∧
  (OverlayItem.kind o = text →
   truthy (OverlayItem.text o) = true →
   ∃ s, Canvas.transform s = localFrame (Canvas.scaling k k) o ∧
        Canvas.textAlign s = "center"%string ∧
        Canvas.textBaseline s = "middle"%string ∧
        Canvas.font s = "48px Impact, system-ui"%string ∧
        Canvas.FillText s (default ""%string (OverlayItem.text o)) 0 0
        ∈ frame).
Proof.
  intros k frame Ho. unfold frame, CanvasStage.draw, CanvasStage.stageSize.
  cbv zeta. simpl.
  rewrite (proj2 (proj2 (drawOverlays_frame _ _ _ _))).
  set (size := Tools.clamp (default 600 clientWidth) 320 900).
  fold k.
  destruct (base_layer_paints (CanvasStage.baseImg st) size size k)
    as [Hcur _].
  set (layer := CanvasStage.drawBase _ _ _ _) in *.
  split.
  - intros Hk Hs img Hc. eexists. split; [|apply elem_of_app; right].
    2:{ apply (elem_of_concat_map _ _ o); [done|].
        by apply overlayPaints_image. }
    simpl. by rewrite Hcur.
  - intros Hk Ht.
    destruct (overlayPaints_text (CanvasStage.overlayImgs st)
                (CanvasStage.selectedId st) (Canvas.cur layer) o Hk Ht)
      as (s & Htr & Ha & Hb & Hf & Hin).
    exists s. rewrite Htr, Hcur. repeat split; try done.
    apply elem_of_app. right. by apply (elem_of_concat_map _ _ o).
Qed.

Lemma visible_overlays_are_painted_witness :
  ∃ s, Canvas.FillText s "LOL" 0 0
       ∈ Canvas.painted
           (CanvasStage.context (CanvasStage.draw two_overlays None 1)).
Proof.
  destruct (visible_overlays_are_painted two_overlays None 1 label_at_20)
    as [_ Htext].
  - right. left.
  - destruct Htext as (s & _ & _ & _ & _ & Hin); [done | done |].
    by exists s.
Defined.

(** X23.  Without a base url there is nothing to wait for: when the url is
    absent or empty, the run of the base effect empties the slot at once,
    and no completion of a decode addressed to that run changes the state. *)
Theorem absent_base_url_empties_slot (st : CanvasStage.State) :
  truthy (CanvasStage.baseImageUrl st) = false →
  let st' := CanvasStage.baseImageEffect st in
  CanvasStage.baseImg st' = None ∧
  ∀ r, step st' (BaseDecoded (length (CanvasStage.baseEffects st)) r) = st'.
Proof.
  intros Hurl. cbv zeta. unfold CanvasStage.baseImageEffect. cbv zeta.
  rewrite Hurl. split; [done|]. intros r. cbn [step].
  unfold CanvasStage.baseDecoded. simpl.
  rewrite lookup_app_r by (by rewrite length_alter).
  by rewrite length_alter, Nat.sub_diag.
Qed.

Lemma absent_base_url_empties_slot_witness :
  CanvasStage.baseImg
    (CanvasStage.baseImageEffect (CanvasStage.setBaseImg (Some sample_photo)
                                    two_overlays))
  = None.
Proof.
  apply (absent_base_url_empties_slot
           (CanvasStage.setBaseImg (Some sample_photo) two_overlays)).
  reflexivity.
Defined.
